(** * A shallow embedding of [game_agent.py]

    The agent of [game_agent.py] (an Isolation player: evaluation function,
    depth-limited minimax, minimax with alpha-beta pruning, iterative
    deepening under a deadline) is translated function by function.

    Modelling choices, all forced by the source:
    - a score is a Python float.  Every score the agent manipulates is either
      [float("-inf")], [float("inf")] or a finite value; finite values are
      modelled by [Z] (the evaluation function [custom_score] only produces
      integer-valued floats).  NaN is not modelled.
    - the local variable [score] of the searches starts as [None]; a Python
      value that is either [None] or a float is an [option num].
    - Python 3 semantics: ordering [None] against a float raises [TypeError].
    - exceptions ([Timeout], [TypeError], [IndexError]) are explicit results.
    - [time_left] is an effectful callback.  The state counts how many times
      it has been read ([ticks]); the k-th reading is [time_left k].
    - the state also logs, in order, every call the agent makes to its
      collaborators ([trace]), so that "before evaluating", "without invoking
      search" and "no recursion" are statements about the log.
    - [for depth in count(1)] does not terminate by itself; the driver takes
      a fuel argument and returns [None] when the fuel is exhausted. *)

From Stdlib Require Import ZArith List Bool Lia.
Import ListNotations.
Open Scope Z_scope.

(** ** Python values *)

(** A float: the two infinities or a finite value. *)
Inductive num : Type :=
| NegInf
| Fin (z : Z)
| PosInf.

(** [a < b] on floats. *)
Definition num_ltb (a b : num) : bool :=
  match a, b with
  | NegInf, NegInf => false
  | NegInf, _ => true
  | Fin _, NegInf => false
  | Fin x, Fin y => x <? y
  | Fin _, PosInf => true
  | PosInf, _ => false
  end.

(** [a >= b] on floats. *)
Definition num_geb (a b : num) : bool := negb (num_ltb a b).

Definition num_eqb (a b : num) : bool :=
  match a, b with
  | NegInf, NegInf => true
  | Fin x, Fin y => x =? y
  | PosInf, PosInf => true
  | _, _ => false
  end.

(** Truth value of a float: [0.0] is false, everything else (the infinities
    included) is true. *)
Definition truthy (x : num) : bool :=
  match x with
  | Fin 0 => false
  | _ => true
  end.

(** [current or dflt], where [current] is [None] or a float. *)
Definition py_or (current : option num) (dflt : num) : num :=
  match current with
  | None => dflt
  | Some c => if truthy c then c else dflt
  end.

(** A move is a (row, column) pair. *)
Definition Move : Type := (Z * Z)%type.

Definition move_eqb (a b : Move) : bool :=
  (fst a =? fst b) && (snd a =? snd b).

(** [CustomPlayer.NO_MOVE] *)
Definition NO_MOVE : Move := (-1, -1).

(** A board cell: both coordinates are non-negative. *)
Definition on_board (m : Move) : Prop := 0 <= fst m /\ 0 <= snd m.

(** ** Exceptions and results *)

Inductive exn : Type :=
| Timeout
| TypeError
| IndexError.

Inductive outcome (A : Type) : Type :=
| Ok (a : A)
| Raise (e : exn).
Arguments Ok {A} a.
Arguments Raise {A} e.

Definition obind {A B : Type} (o : outcome A) (k : A -> outcome B) : outcome B :=
  match o with
  | Ok a => k a
  | Raise e => Raise e
  end.

(** [proposed > bound] and [proposed < bound], where [proposed] may be [None]. *)
Definition py_gt (proposed : option num) (bound : num) : outcome bool :=
  match proposed with
  | Some p => Ok (num_ltb bound p)
  | None => Raise TypeError
  end.

Definition py_lt (proposed : option num) (bound : num) : outcome bool :=
  match proposed with
  | Some p => Ok (num_ltb p bound)
  | None => Raise TypeError
  end.

(** [a and b]: the right operand is evaluated only when the left one holds. *)
Definition py_and (a : bool) (b : outcome bool) : outcome bool :=
  if a then b else Ok false.

(** ** The static helpers of [CustomPlayer] *)

(** [minimax_change_decision(maxplayer, proposed, current=None)] *)
Definition minimax_change_decision
    (maxplayer : bool) (proposed current : option num) : outcome bool :=
  obind (py_and maxplayer (py_gt proposed (py_or current NegInf))) (fun c1 =>
  if c1 then Ok true else
  obind (py_and (negb maxplayer) (py_lt proposed (py_or current PosInf))) (fun c2 =>
  if c2 then Ok true else Ok false)).

(** [alphabeta_cut_decision(maxplayer, alpha, beta)] *)
Definition alphabeta_cut_decision (maxplayer : bool) (alpha beta : num) : bool :=
  if maxplayer && num_geb alpha beta then true
  else if negb maxplayer && num_geb alpha beta then true
  else false.

(** [alphabeta_update(maxplayer, alpha, beta, proposed)] *)
Definition alphabeta_update
    (maxplayer : bool) (alpha beta : num) (proposed : option num)
  : outcome (num * num) :=
  obind (py_and maxplayer (py_gt proposed alpha)) (fun c1 =>
  if c1 then match proposed with Some p => Ok (p, beta) | None => Raise TypeError end
  else
  obind (py_and (negb maxplayer) (py_lt proposed beta)) (fun c2 =>
  if c2 then match proposed with Some p => Ok (alpha, p) | None => Raise TypeError end
  else Ok (alpha, beta))).

(** ** The collaborator: the board *)

(** What the agent uses of [isolation.Board].  The optional argument of
    [get_legal_moves] is the player; omitted, it means the player to move. *)
Class Board (Game Player : Type) : Type := {
  get_legal_moves : Game -> option Player -> list Move;
  forecast_move : Game -> Move -> Game;
  is_winner : Game -> Player -> bool;
  is_loser : Game -> Player -> bool;
  get_opponent : Game -> Player -> Player
}.

(** [custom_score(game, player)]; [float(n)] of a small integer is [Fin n]. *)
Definition custom_score {Game Player : Type} `{Board Game Player}
    (game : Game) (player : Player) : num :=
  if is_loser game player then NegInf
  else if is_winner game player then PosInf
  else
    let own_moves := Z.of_nat (length (get_legal_moves game (Some player))) in
    let opp_moves :=
      Z.of_nat (length (get_legal_moves game (Some (get_opponent game player)))) in
    Fin (own_moves - opp_moves).

(** ** The agent *)

Inductive Method : Type :=
| Minimax
| Alphabeta.

(** The attributes set by [CustomPlayer.__init__]; [handle] is the agent
    itself seen as a player of the board ([self] in [self.score(game, self)]). *)
Record CustomPlayer (Game Player : Type) : Type := {
  search_depth : nat;
  score : Game -> Player -> num;
  iterative : bool;
  method : Method;
  TIMER_THRESHOLD : Z;
  handle : Player
}.
Arguments search_depth {Game Player} _.
Arguments score {Game Player} _ _ _.
Arguments iterative {Game Player} _.
Arguments method {Game Player} _.
Arguments TIMER_THRESHOLD {Game Player} _.
Arguments handle {Game Player} _.

(** One call made by the agent to the outside. *)
Inductive event (Game : Type) : Type :=
| EvTimeLeft
| EvLegalMoves (g : Game)
| EvForecast (g : Game) (m : Move)
| EvScore (g : Game).
Arguments EvTimeLeft {Game}.
Arguments EvLegalMoves {Game} g.
Arguments EvForecast {Game} g m.
Arguments EvScore {Game} g.

(** [ticks]: how many times [time_left] has been read; [trace]: the calls
    made so far, oldest first. *)
Record state (Game : Type) : Type := {
  ticks : nat;
  trace : list (event Game)
}.
Arguments ticks {Game} _.
Arguments trace {Game} _.

Definition M (Game A : Type) : Type := state Game -> outcome A * state Game.

Definition ret {Game A : Type} (a : A) : M Game A := fun st => (Ok a, st).

Definition raise {Game A : Type} (e : exn) : M Game A := fun st => (Raise e, st).

Definition lift {Game A : Type} (o : outcome A) : M Game A := fun st => (o, st).

Definition bind {Game A B : Type} (m : M Game A) (k : A -> M Game B) : M Game B :=
  fun st =>
    match m st with
    | (Ok a, st') => k a st'
    | (Raise e, st') => (Raise e, st')
    end.

Notation "x <- m ;; k" := (bind m (fun x => k))
  (at level 61, m at next level, right associativity).
Notation "m ;;; k" := (bind m (fun _ => k))
  (at level 61, right associativity).

Definition log {Game : Type} (e : event Game) : M Game unit :=
  fun st => (Ok tt, {| ticks := ticks st; trace := trace st ++ [e] |}).

Section Agent.
Context {Game Player : Type} `{Board Game Player}.
Variable self : CustomPlayer Game Player.
(** The callback handed to [get_move], as the sequence of its readings. *)
Variable time_left : nat -> Z.

(** [self.time_left()] *)
Definition read_time_left : M Game Z :=
  fun st =>
    (Ok (time_left (ticks st)),
     {| ticks := S (ticks st); trace := trace st ++ [EvTimeLeft] |}).

(** [if self.time_left() < self.TIMER_THRESHOLD: raise Timeout()] *)
Definition check_time : M Game unit :=
  t <- read_time_left ;;
  if t <? TIMER_THRESHOLD self then raise Timeout else ret tt.

(** [game.get_legal_moves()] *)
Definition call_get_legal_moves (game : Game) : M Game (list Move) :=
  log (EvLegalMoves game) ;;; ret (get_legal_moves game None).

(** [game.forecast_move(m)] *)
Definition call_forecast_move (game : Game) (m : Move) : M Game Game :=
  log (EvForecast game m) ;;; ret (forecast_move game m).

(** [self.score(game, self)] *)
Definition call_score (game : Game) : M Game num :=
  log (EvScore game) ;;; ret (score self game (handle self)).

(** [is_game_terminal(game)] *)
Definition is_game_terminal (game : Game) : M Game bool :=
  moves <- call_get_legal_moves game ;;
  ret (Nat.eqb (length moves) 0).

(** The base case of both searches: evaluate, no move. *)
Definition evaluate_here (game : Game) : M Game (option num * Move) :=
  s <- call_score game ;;
  ret (Some s, NO_MOVE).

(** The [for m in moves] loop of [minimax]; [recur] is the recursive call
    one ply deeper, [score] and [move] the running best. *)
Fixpoint minimax_loop (recur : Game -> M Game (option num * Move))
    (game : Game) (maximizing_player : bool) (moves : list Move)
    (score : option num) (move : Move) : M Game (option num * Move) :=
  match moves with
  | [] => ret (score, move)
  | m :: rest =>
      child <- call_forecast_move game m ;;
      r <- recur child ;;
      change <- lift (minimax_change_decision maximizing_player (fst r) score) ;;
      if change
      then minimax_loop recur game maximizing_player rest (fst r) m
      else minimax_loop recur game maximizing_player rest score move
  end.

(** [minimax(self, game, depth, maximizing_player=True)] *)
Fixpoint minimax (game : Game) (depth : nat) (maximizing_player : bool)
    {struct depth} : M Game (option num * Move) :=
  check_time ;;;
  match depth with
  | O => evaluate_here game
  | S subdepth =>
      terminal <- is_game_terminal game ;;
      if terminal then evaluate_here game
      else
        moves <- call_get_legal_moves game ;;
        match moves with
        | [] => raise IndexError
        | m0 :: _ =>
            minimax_loop
              (fun child => minimax child subdepth (negb maximizing_player))
              game maximizing_player moves None m0
        end
  end.

(** The [for m in moves] loop of [alphabeta], with its [break]. *)
Fixpoint alphabeta_loop
    (recur : Game -> num -> num -> M Game (option num * Move))
    (game : Game) (maximizing_player : bool) (moves : list Move)
    (alpha beta : num) (score : option num) (move : Move)
  : M Game (option num * Move) :=
  match moves with
  | [] => ret (score, move)
  | m :: rest =>
      child <- call_forecast_move game m ;;
      r <- recur child alpha beta ;;
      change <- lift (minimax_change_decision maximizing_player (fst r) score) ;;
      if change
      then
        ab <- lift (alphabeta_update maximizing_player alpha beta (fst r)) ;;
        if alphabeta_cut_decision maximizing_player (fst ab) (snd ab)
        then ret (fst r, m)
        else alphabeta_loop recur game maximizing_player rest
               (fst ab) (snd ab) (fst r) m
      else alphabeta_loop recur game maximizing_player rest alpha beta score move
  end.

(** [alphabeta(self, game, depth, alpha, beta, maximizing_player)] *)
Fixpoint alphabeta (game : Game) (depth : nat) (alpha beta : num)
    (maximizing_player : bool) {struct depth} : M Game (option num * Move) :=
  check_time ;;;
  match depth with
  | O => evaluate_here game
  | S subdepth =>
      terminal <- is_game_terminal game ;;
      if terminal then evaluate_here game
      else
        moves <- call_get_legal_moves game ;;
        match moves with
        | [] => raise IndexError
        | m0 :: _ =>
            alphabeta_loop
              (fun child a b =>
                 alphabeta child subdepth a b (negb maximizing_player))
              game maximizing_player moves alpha beta None m0
        end
  end.

(** [method = getattr(self, self.method)], then [method(game, depth)] with
    the default values of the other parameters. *)
Definition search (game : Game) (depth : nat) : M Game (option num * Move) :=
  match method self with
  | Minimax => minimax game depth true
  | Alphabeta => alphabeta game depth NegInf PosInf true
  end.

(** [for depth in count(1): score, move = method(game, depth)].  The loop
    is left only by an exception; the result is that exception together
    with the values then held by [score] and [move]. *)
Fixpoint deepening (fuel : nat) (game : Game) (depth : nat)
    (score : option num) (move : Move) (st : state Game)
  : option (exn * (option num * Move) * state Game) :=
  match fuel with
  | O => None
  | S fuel' =>
      match search game depth st with
      | (Ok (s, m), st') => deepening fuel' game (S depth) s m st'
      | (Raise e, st') => Some (e, (score, move), st')
      end
  end.

(** [except Timeout: pass], then [return move]. *)
Definition after_try (e : exn) (move : Move) : outcome Move :=
  match e with
  | Timeout => Ok move
  | _ => Raise e
  end.

(** [get_move(self, game, legal_moves, time_left)] *)
Definition get_move (fuel : nat) (game : Game) (legal_moves : list Move)
    (st : state Game) : option (outcome Move * state Game) :=
  match legal_moves with
  | [] => Some (Ok NO_MOVE, st)
  | m0 :: _ =>
      if iterative self then
        match deepening fuel game 1 None m0 st with
        | None => None
        | Some (e, (_, move), st') => Some (after_try e move, st')
        end
      else
        match search game (search_depth self) st with
        | (Ok (_, move), st') => Some (Ok move, st')
        | (Raise e, st') => Some (after_try e m0, st')
        end
  end.

(** *** Notions used to state the properties *)

(** The state after one more reading of the clock. *)
Definition after_reading (st : state Game) : state Game :=
  {| ticks := S (ticks st); trace := trace st ++ [EvTimeLeft] |}.

(** The state after one more collaborator call. *)
Definition after_call (e : event Game) (st : state Game) : state Game :=
  {| ticks := ticks st; trace := trace st ++ [e] |}.

(** The k-th reading of the clock is below the threshold. *)
Definition expired (k : nat) : Prop := time_left k < TIMER_THRESHOLD self.

(** What a run from [st] to [st'] with result [r] tells about the clock:
    it only moves forward; a reading below the threshold can only be the
    last one, and then the result is [Timeout]; and [Timeout] is only
    raised on such a reading. *)
Definition punctual {A : Type} (st : state Game) (r : outcome A) (st' : state Game)
  : Prop :=
  (ticks st <= ticks st')%nat /\
  (forall i, (ticks st <= i < ticks st')%nat -> expired i ->
             r = Raise Timeout /\ S i = ticks st') /\
  (r = Raise Timeout ->
   (ticks st < ticks st')%nat /\ expired (pred (ticks st'))).

Definition clocked {A : Type} (m : M Game A) : Prop :=
  forall st r st', m st = (r, st') -> punctual st r st'.

(** [completed m0 st0 d kept st]: started in [st0] with the fallback move
    [m0], the searches at depths 1 to [d] have all returned, one after the
    other; [st] is the state reached and [kept] the pair then held by the
    driver (the result of depth [d], or [(None, m0)] when [d] is 0). *)
Inductive completed (game : Game) (m0 : Move) (st0 : state Game)
  : nat -> option num * Move -> state Game -> Prop :=
| completed_none : completed game m0 st0 0 (None, m0) st0
| completed_next (d : nat) (kept r : option num * Move) (st st' : state Game) :
    completed game m0 st0 d kept st ->
    search game (S d) st = (Ok r, st') ->
    completed game m0 st0 (S d) r st'.

End Agent.

(** ** Concrete boards *)

(** An explicit game tree: the value the plugged evaluation function gives
    to the node, and the successor reached by each legal move, in the order
    in which [get_legal_moves] lists the moves. *)
#[warnings="-register-all"]
Inductive tree : Type :=
| Node (value : num) (children : list (Move * tree)).

Definition tree_value (t : tree) : num :=
  match t with Node v _ => v end.

Definition tree_children (t : tree) : list (Move * tree) :=
  match t with Node _ cs => cs end.

Fixpoint tree_child (m : Move) (cs : list (Move * tree)) (dflt : tree) : tree :=
  match cs with
  | [] => dflt
  | (m', t) :: rest => if move_eqb m m' then t else tree_child m rest dflt
  end.

#[global] Instance tree_board : Board tree bool := {|
  get_legal_moves t _ := map fst (tree_children t);
  forecast_move t m := tree_child m (tree_children t) t;
  is_winner _ _ := false;
  is_loser _ _ := false;
  get_opponent _ p := negb p
|}.

Definition leaf (v : Z) : tree := Node (Fin v) [].

(** An agent on game trees whose evaluation function reads the node value. *)
Definition tree_player (it : bool) (d : nat) (meth : Method) : CustomPlayer tree bool := {|
  search_depth := d;
  score := fun g _ => tree_value g;
  iterative := it;
  method := meth;
  TIMER_THRESHOLD := 10;
  handle := true
|}.

(** A clock that never gets near the threshold. *)
Definition plenty : nat -> Z := fun _ => 1000.

(** A clock that loses one millisecond per reading, starting from [t0]. *)
Definition countdown (t0 : Z) : nat -> Z := fun k => t0 - Z.of_nat k.

Definition start : state tree := {| ticks := 0; trace := [] |}.

(** The maximizer moves first; the replies to its three moves are listed
    with the value of the position each reply leads to. *)
Definition parity_tree : tree :=
  Node (Fin 0)
    [ ((0, 0), Node (Fin 0) [ ((1, 0), leaf 0) ]);
      ((0, 1), Node (Fin 0) [ ((1, 0), leaf 0); ((1, 1), leaf 5) ]);
      ((0, 2), Node (Fin 0) [ ((1, 0), leaf 1) ]) ].

(** Two sibling moves leading to positions of equal value [0.0]. *)
Definition tie_tree : tree :=
  Node (Fin 0) [ ((0, 0), leaf 0); ((0, 1), leaf 0) ].

(** Two sibling moves leading to positions of equal value [3.0]. *)
Definition tie3_tree : tree :=
  Node (Fin 0) [ ((0, 0), leaf 3); ((0, 1), leaf 3) ].

(** A position of the maximizer all of whose successors are valued [-inf]
    by the plugged evaluation function, the minimizing ply above it, and the
    root (maximizing) above that one. *)
Definition lost_leaf : tree := Node NegInf [].
Definition doomed_tree : tree :=
  Node (Fin 0) [ ((2, 1), lost_leaf); ((1, 2), lost_leaf) ].
Definition above_doomed : tree :=
  Node (Fin 0) [ ((0, 0), doomed_tree) ].
Definition top_doomed : tree :=
  Node (Fin 0) [ ((1, 1), above_doomed) ].

(** A board reduced to what [custom_score] looks at: who is to move and
    which moves each player has.  A player has lost when it is to move and
    has no move; it has won when the other one is in that situation. *)
Record position : Type := {
  to_move : bool;
  moves_of : bool -> list Move
}.

#[global] Instance position_board : Board position bool := {|
  get_legal_moves g p :=
    match p with
    | Some q => moves_of g q
    | None => moves_of g (to_move g)
    end;
  forecast_move g m :=
    {| to_move := negb (to_move g);
       moves_of := fun q => filter (fun x => negb (move_eqb x m)) (moves_of g q) |};
  is_winner g p :=
    negb (Bool.eqb p (to_move g)) && Nat.eqb (length (moves_of g (to_move g))) 0;
  is_loser g p :=
    Bool.eqb p (to_move g) && Nat.eqb (length (moves_of g p)) 0;
  get_opponent _ p := negb p
|}.

(** Player [true] to move with three moves against two. *)
Definition open_position : position :=
  {| to_move := true;
     moves_of := fun q => if q then [(0, 1); (1, 0); (2, 2)] else [(0, 1); (2, 2)] |}.

(** Player [true] to move and blocked. *)
Definition blocked_position : position :=
  {| to_move := true;
     moves_of := fun q => if q then [] else [(0, 1)] |}.

(** ** Reference notions for the searches *)

(** The larger and the smaller of two floats. *)
Definition num_max (a b : num) : num := if num_ltb a b then b else a.
Definition num_min (a b : num) : num := if num_ltb b a then b else a.

(** A finite score other than [0.0]. *)
Definition plain (x : num) : Prop :=
  match x with
  | Fin z => z <> 0
  | _ => False
  end.

Definition finite_part (x : num) : Z :=
  match x with
  | Fin z => z
  | _ => 0
  end.

(** The largest ([mp = true]) or smallest value of a non-empty list. *)
Definition extremum (mp : bool) (v0 : Z) (vs : list Z) : Z :=
  fold_left (if mp then Z.max else Z.min) vs v0.

(** [a] is strictly better than [b] for the side to move. *)
Definition beats (mp : bool) (a b : Z) : Prop :=
  if mp then b < a else a < b.

(** [m] is the first move of [moves] whose value [vc m] no other move
    beats: the moves before it are strictly worse, the moves after it are
    not better. *)
Definition first_best (mp : bool) (vc : Move -> Z) (moves : list Move)
    (m : Move) : Prop :=
  exists pre post,
    moves = pre ++ m :: post /\
    (forall x, In x pre -> beats mp (vc m) (vc x)) /\
    (forall x, In x post -> ~ beats mp (vc x) (vc m)).

(** What a search with the window [(a, b)] may return as [x] for a position
    of value [v]: at or below [a], an upper bound of [v]; at or above [b], a
    lower bound of [v]; strictly inside, [v] itself. *)
Definition window_sound (a b : num) (v x : Z) : Prop :=
  x <> 0 /\
  (num_ltb a (Fin x) = false -> v <= x) /\
  (num_ltb (Fin x) b = false -> x <= v) /\
  (num_ltb a (Fin x) = true -> num_ltb (Fin x) b = true -> v = x).

Section Notions.
Context {Game Player : Type} `{Board Game Player}.

(** [within n g g']: position [g'] is reached from [g] by at most [n]
    legal moves. *)
Inductive within : nat -> Game -> Game -> Prop :=
| within_here (n : nat) (g : Game) : within n g g
| within_step (n : nat) (g : Game) (m : Move) (g' : Game) :
    In m (get_legal_moves g None) ->
    within n (forecast_move g m) g' ->
    within (S n) g g'.

(** The number of positions of the game tree cut at depth [d]: the
    position itself and, unless the depth is 0, those of the trees of its
    successors cut one ply earlier. *)
Fixpoint nodes (d : nat) (g : Game) : nat :=
  match d with
  | O => 1
  | S d' =>
      S (list_sum (map (fun m => nodes d' (forecast_move g m))
                     (get_legal_moves g None)))
  end.

(** A logged call is legal when, being a forecast, the move forecast is a
    legal move of the position it is forecast from. *)
Definition legal_call (e : event Game) : Prop :=
  match e with
  | EvForecast g m => In m (get_legal_moves g None)
  | _ => True
  end.

(** A computation that only adds legal calls at the end of the log. *)
Definition lawful {A : Type} (m : M Game A) : Prop :=
  forall st r st',
    m st = (r, st') ->
    exists l, trace st' = trace st ++ l /\ Forall legal_call l.

(** A computation that never raises [IndexError]. *)
Definition guarded {A : Type} (m : M Game A) : Prop :=
  forall st, fst (m st) <> Raise IndexError.

(** Every outcome of [m] other than a raised [Timeout] is also the outcome
    of [m'], from the same state and with the same final state. *)
Definition reproduces {A : Type} (m m' : M Game A) : Prop :=
  forall st r st', m st = (r, st') -> r <> Raise Timeout -> m' st = (r, st').

End Notions.

Section Reference.
Context {Game Player : Type} `{Board Game Player}.
Variable self : CustomPlayer Game Player.

(** The textbook depth-limited minimax value of a position, for an
    evaluation function with finite values: the evaluation at depth 0 or
    without moves, and otherwise the best of the values of the successors
    for the side to move. *)
Fixpoint reference_value (d : nat) (g : Game) (mp : bool) : Z :=
  match d with
  | O => finite_part (score self g (handle self))
  | S d' =>
      match get_legal_moves g None with
      | [] => finite_part (score self g (handle self))
      | m0 :: rest =>
          extremum mp
            (reference_value d' (forecast_move g m0) (negb mp))
            (map (fun m => reference_value d' (forecast_move g m) (negb mp)) rest)
      end
  end.

(** The clock [time_left] with every reading raised to the threshold: a
    clock on which the agent never runs out of time. *)
Definition patient (time_left : nat -> Z) : nat -> Z :=
  fun k => Z.max (time_left k) (TIMER_THRESHOLD self).

(** The move that goes with it: the sentinel at depth 0 or without moves,
    and otherwise the first best move. *)
Definition reference_move (d : nat) (g : Game) (mp : bool) (m : Move) : Prop :=
  match d with
  | O => m = NO_MOVE
  | S d' =>
      match get_legal_moves g None with
      | [] => m = NO_MOVE
      | moves =>
          first_best mp
            (fun x => reference_value d' (forecast_move g x) (negb mp)) moves m
      end
  end.

(** A result whose score, when there is one, is the evaluation of a
    position at most [n] moves away from [g]. *)
Definition evaluated_within (n : nat) (g : Game) (r : option num * Move) : Prop :=
  forall v, fst r = Some v ->
            exists g', within n g g' /\ v = score self g' (handle self).

End Reference.

(** An agent on game trees whose evaluation function reads the node value
    and replaces [0.0] and the infinities by [1.0]. *)
Definition plain_value (t : tree) : num :=
  match tree_value t with
  | Fin 0 => Fin 1
  | Fin z => Fin z
  | _ => Fin 1
  end.

Definition plain_player (it : bool) (d : nat) (meth : Method)
  : CustomPlayer tree bool := {|
  search_depth := d;
  score := fun g _ => plain_value g;
  iterative := it;
  method := meth;
  TIMER_THRESHOLD := 10;
  handle := true
|}.

(** Three moves for the maximizer: the best one at depth 1 is the second,
    the best one at depth 2 is the third, and neither is the first. *)
Definition deepening_tree : tree :=
  Node (Fin 7)
    [ ((0, 0), Node (Fin 2) [ ((1, 0), leaf 1) ]);
      ((0, 1), Node (Fin 5) [ ((1, 0), leaf 1); ((1, 1), leaf 9) ]);
      ((0, 2), Node (Fin 3) [ ((1, 0), leaf 4) ]) ].

(** Three moves for the maximizer, two or three replies each. *)
Definition sample_tree : tree :=
  Node (Fin 7)
    [ ((0, 0), Node (Fin 2) [ ((1, 0), leaf 3); ((1, 1), leaf 5) ]);
      ((0, 1), Node (Fin 2) [ ((1, 0), leaf 2); ((1, 1), leaf 9) ]);
      ((0, 2), Node (Fin 2) [ ((1, 0), leaf 4); ((1, 1), leaf 6); ((1, 2), leaf 8) ]) ].

(** * Properties *)

(** ** Floats and the selection rule *)

Lemma num_ltb_irrefl (a : num) : num_ltb a a = false.
Proof. destruct a; simpl; auto using Z.ltb_irrefl. Qed.

Lemma num_ltb_NegInf (a : num) : num_ltb a NegInf = false.
Proof. destruct a; reflexivity. Qed.

Lemma num_ltb_PosInf (a : num) : num_ltb PosInf a = false.
Proof. destruct a; reflexivity. Qed.

(** [current or default] is [current] unless it is [None] or [0.0]. *)
Lemma py_or_nonzero (c d : num) : c <> Fin 0 -> py_or (Some c) d = c.
Proof.
  intros Hc. unfold py_or, truthy.
  destruct c as [|z|]; try reflexivity.
  destruct z; try reflexivity. now elim Hc.
Qed.

Lemma py_or_zero (d : num) : py_or (Some (Fin 0)) d = d.
Proof. reflexivity. Qed.

(** The rule, when the proposed score is a float. *)
Lemma minimax_change_decision_some (maxplayer : bool) (p : num) (current : option num) :
  minimax_change_decision maxplayer (Some p) current =
  Ok (if maxplayer then num_ltb (py_or current NegInf) p
      else num_ltb p (py_or current PosInf)).
Proof.
  unfold minimax_change_decision, py_and, py_gt, py_lt, obind.
  destruct maxplayer; simpl.
  - now destruct (num_ltb (py_or current NegInf) p).
  - now destruct (num_ltb p (py_or current PosInf)).
Qed.

(** Where the running best is a float other than [0.0], the rule is the
    strict comparison with it. *)
Lemma minimax_change_decision_strict (maxplayer : bool) (p c : num) :
  c <> Fin 0 ->
  minimax_change_decision maxplayer (Some p) (Some c) =
  Ok (if maxplayer then num_ltb c p else num_ltb p c).
Proof.
  intros Hc. rewrite minimax_change_decision_some.
  now rewrite !py_or_nonzero by assumption.
Qed.

(** With no running best yet, the bound is the infinity of the side. *)
Lemma minimax_change_decision_first (maxplayer : bool) (p : num) :
  minimax_change_decision maxplayer (Some p) None =
  Ok (if maxplayer then num_ltb NegInf p else num_ltb p PosInf).
Proof. now rewrite minimax_change_decision_some. Qed.

(** A proposed [None] cannot be ordered. *)
Lemma minimax_change_decision_none (maxplayer : bool) (current : option num) :
  minimax_change_decision maxplayer None current = Raise TypeError.
Proof. destruct maxplayer; reflexivity. Qed.

(** The helpers never raise [Timeout]. *)
Lemma minimax_change_decision_no_timeout (maxplayer : bool) (p c : option num) :
  minimax_change_decision maxplayer p c <> Raise Timeout.
Proof.
  destruct p as [p|].
  - rewrite minimax_change_decision_some. discriminate.
  - rewrite minimax_change_decision_none. discriminate.
Qed.

Lemma alphabeta_update_no_timeout (maxplayer : bool) (a b : num) (p : option num) :
  alphabeta_update maxplayer a b p <> Raise Timeout.
Proof.
  unfold alphabeta_update, py_and, py_gt, py_lt, obind.
  destruct p as [p|], maxplayer; simpl; try discriminate.
  - destruct (num_ltb a p); discriminate.
  - destruct (num_ltb p b); discriminate.
Qed.

(** ** The deadline: which reading of the clock raises *)

Section Deadline.
Context {Game Player : Type} `{Board Game Player}.
Variable self : CustomPlayer Game Player.
Variable time_left : nat -> Z.

Lemma clocked_lift {A : Type} (o : outcome A) :
  o <> Raise Timeout -> clocked self time_left (lift o).
Proof.
  intros Ho st r st' E. inversion E; subst. unfold punctual.
  split; [lia|]. split.
  - intros i Hi _. lia.
  - intros Hr. now elim Ho.
Qed.

Lemma clocked_ret {A : Type} (a : A) : clocked self time_left (ret a).
Proof. apply (clocked_lift (Ok a)). discriminate. Qed.

Lemma clocked_raise {A : Type} (e : exn) :
  e <> Timeout -> clocked self time_left (@raise Game A e).
Proof.
  intros He. apply (clocked_lift (Raise e)). intros E. inversion E. now elim He.
Qed.

Lemma clocked_log (e : event Game) : clocked self time_left (log e).
Proof.
  intros st r st' E. inversion E; subst. unfold punctual. simpl.
  split; [lia|]. split.
  - intros i Hi _. lia.
  - discriminate.
Qed.

Lemma clocked_bind {A B : Type} (m : M Game A) (k : A -> M Game B) :
  clocked self time_left m ->
  (forall a, clocked self time_left (k a)) ->
  clocked self time_left (bind m k).
Proof.
  intros Hm Hk st r st' E. unfold bind in E.
  destruct (m st) as [[a|e] st1] eqn:Em.
  - destruct (Hm _ _ _ Em) as (Hle1 & Hin1 & _).
    destruct (Hk a _ _ _ E) as (Hle2 & Hin2 & Hto2).
    split; [lia|]. split.
    + intros i Hi Hx.
      destruct (Nat.lt_ge_cases i (ticks st1)) as [Hlt|Hge].
      * destruct (Hin1 i (conj (proj1 Hi) Hlt) Hx) as [Hbad _]. discriminate.
      * apply Hin2; [lia | assumption].
    + intros Hr. destruct (Hto2 Hr) as [Hlt Hx]. split; [lia | assumption].
  - inversion E; subst.
    destruct (Hm _ _ _ Em) as (Hle & Hin & Hto).
    split; [exact Hle|]. split.
    + intros i Hi Hx. destruct (Hin i Hi Hx) as [Hr Hs].
      inversion Hr; subst. now split.
    + intros Hr. inversion Hr; subst. now apply Hto.
Qed.

Lemma clocked_check_time : clocked self time_left (check_time self time_left).
Proof.
  intros st r st' E. unfold check_time, bind, read_time_left, raise, ret in E.
  destruct (Z.ltb_spec (time_left (ticks st)) (TIMER_THRESHOLD self)) as [Hlt|Hge];
    inversion E; subst; clear E; unfold punctual; simpl.
  - split; [lia|]. split.
    + intros i Hi _. split; [reflexivity | lia].
    + intros _. split; [lia | exact Hlt].
  - split; [lia|]. split.
    + intros i Hi Hx. assert (i = ticks st) by lia. subst i.
      unfold expired in Hx. lia.
    + discriminate.
Qed.

Lemma clocked_call_get_legal_moves (game : Game) :
  clocked self time_left (call_get_legal_moves game).
Proof. apply clocked_bind; [apply clocked_log | intros; apply clocked_ret]. Qed.

Lemma clocked_call_forecast_move (game : Game) (m : Move) :
  clocked self time_left (call_forecast_move game m).
Proof. apply clocked_bind; [apply clocked_log | intros; apply clocked_ret]. Qed.

Lemma clocked_call_score (game : Game) : clocked self time_left (call_score self game).
Proof. apply clocked_bind; [apply clocked_log | intros; apply clocked_ret]. Qed.

Lemma clocked_is_game_terminal (game : Game) : clocked self time_left (is_game_terminal game).
Proof.
  apply clocked_bind; [apply clocked_call_get_legal_moves | intros; apply clocked_ret].
Qed.

Lemma clocked_evaluate_here (game : Game) : clocked self time_left (evaluate_here self game).
Proof.
  apply clocked_bind; [apply clocked_call_score | intros; apply clocked_ret].
Qed.

Lemma clocked_minimax_loop (recur : Game -> M Game (option num * Move))
    (game : Game) (mp : bool) (moves : list Move) :
  (forall g, clocked self time_left (recur g)) ->
  forall score move, clocked self time_left (minimax_loop recur game mp moves score move).
Proof.
  intros Hrec. induction moves as [|m rest IH]; intros score move; simpl.
  - apply clocked_ret.
  - apply clocked_bind; [apply clocked_call_forecast_move | intros child].
    apply clocked_bind; [apply Hrec | intros r].
    apply clocked_bind;
      [apply clocked_lift, minimax_change_decision_no_timeout | intros change].
    destruct change; apply IH.
Qed.

Lemma clocked_alphabeta_loop
    (recur : Game -> num -> num -> M Game (option num * Move))
    (game : Game) (mp : bool) (moves : list Move) :
  (forall g a b, clocked self time_left (recur g a b)) ->
  forall alpha beta score move,
    clocked self time_left (alphabeta_loop recur game mp moves alpha beta score move).
Proof.
  intros Hrec. induction moves as [|m rest IH]; intros alpha beta score move; simpl.
  - apply clocked_ret.
  - apply clocked_bind; [apply clocked_call_forecast_move | intros child].
    apply clocked_bind; [apply Hrec | intros r].
    apply clocked_bind;
      [apply clocked_lift, minimax_change_decision_no_timeout | intros change].
    destruct change; [|apply IH].
    apply clocked_bind;
      [apply clocked_lift, alphabeta_update_no_timeout | intros ab].
    destruct (alphabeta_cut_decision mp (fst ab) (snd ab));
      [apply clocked_ret | apply IH].
Qed.

Lemma clocked_minimax (depth : nat) :
  forall game mp, clocked self time_left (minimax self time_left game depth mp).
Proof.
  induction depth as [|d IH]; intros game mp; simpl.
  - apply clocked_bind; [apply clocked_check_time | intros _].
    apply clocked_evaluate_here.
  - apply clocked_bind; [apply clocked_check_time | intros _].
    apply clocked_bind; [apply clocked_is_game_terminal | intros terminal].
    destruct terminal; [apply clocked_evaluate_here|].
    apply clocked_bind; [apply clocked_call_get_legal_moves | intros moves].
    destruct moves as [|m0 rest]; [apply clocked_raise; discriminate|].
    apply clocked_minimax_loop. intros g. apply IH.
Qed.

Lemma clocked_alphabeta (depth : nat) :
  forall game alpha beta mp,
    clocked self time_left (alphabeta self time_left game depth alpha beta mp).
Proof.
  induction depth as [|d IH]; intros game alpha beta mp; simpl.
  - apply clocked_bind; [apply clocked_check_time | intros _].
    apply clocked_evaluate_here.
  - apply clocked_bind; [apply clocked_check_time | intros _].
    apply clocked_bind; [apply clocked_is_game_terminal | intros terminal].
    destruct terminal; [apply clocked_evaluate_here|].
    apply clocked_bind; [apply clocked_call_get_legal_moves | intros moves].
    destruct moves as [|m0 rest]; [apply clocked_raise; discriminate|].
    apply clocked_alphabeta_loop. intros g a b. apply IH.
Qed.

Lemma clocked_search (game : Game) (depth : nat) :
  clocked self time_left (search self time_left game depth).
Proof.
  unfold search. destruct (method self);
    [apply clocked_minimax | apply clocked_alphabeta].
Qed.

End Deadline.

(** ** Running the two searches *)

Section Runs.
Context {Game Player : Type} `{Board Game Player}.
Variable self : CustomPlayer Game Player.
Variable time_left : nat -> Z.

Lemma bind_ok_inv {A B : Type} (m : M Game A) (k : A -> M Game B)
    (st st' : state Game) (b : B) :
  bind m k st = (Ok b, st') ->
  exists a st1, m st = (Ok a, st1) /\ k a st1 = (Ok b, st').
Proof.
  unfold bind. destruct (m st) as [[a|e] st1]; intros E.
  - now exists a, st1.
  - discriminate.
Qed.

Lemma bind_run {A B : Type} (m : M Game A) (k : A -> M Game B)
    (st st1 : state Game) (a : A) :
  m st = (Ok a, st1) -> bind m k st = k a st1.
Proof. unfold bind. now intros ->. Qed.


Lemma check_time_ok (st : state Game) :
  ~ expired self time_left (ticks st) ->
  check_time self time_left st = (Ok tt, after_reading st).
Proof.
  unfold expired, check_time, bind, read_time_left, ret.
  intros Hx. apply Z.ltb_nlt in Hx. now rewrite Hx.
Qed.

Lemma call_get_legal_moves_run (game : Game) (st : state Game) :
  call_get_legal_moves game st =
  (Ok (get_legal_moves game None), after_call (EvLegalMoves game) st).
Proof. reflexivity. Qed.

Lemma call_forecast_move_run (game : Game) (m : Move) (st : state Game) :
  call_forecast_move game m st =
  (Ok (forecast_move game m), after_call (EvForecast game m) st).
Proof. reflexivity. Qed.

Lemma is_game_terminal_run (game : Game) (st : state Game) :
  is_game_terminal game st =
  (Ok (Nat.eqb (length (get_legal_moves game None)) 0),
   after_call (EvLegalMoves game) st).
Proof. reflexivity. Qed.

Lemma evaluate_here_run (game : Game) (st : state Game) :
  evaluate_here self game st =
  (Ok (Some (score self game (handle self)), NO_MOVE),
   after_call (EvScore game) st).
Proof. reflexivity. Qed.

(** *** Entry of a call *)




(** Whatever follows the deadline check, the clock has been read. *)
Lemma progress_after_check {A : Type} (m : M Game A) (st : state Game) :
  clocked self time_left m ->
  (ticks st < ticks (snd ((check_time self time_left ;;; m) st)))%nat.
Proof.
  intros Hm. unfold bind.
  destruct (check_time self time_left st) as [[[]|e] st1] eqn:Ec.
  - destruct (clocked_check_time self time_left _ _ _ Ec) as (Hle & Hin & _).
    assert (Hst1 : st1 = after_reading st)
      by (unfold check_time, bind, read_time_left, raise, ret in Ec;
          destruct (_ <? _); now inversion Ec).
    subst st1. destruct (m (after_reading st)) as [r st'] eqn:Em.
    destruct (Hm _ _ _ Em) as (Hle' & _). simpl in *. lia.
  - assert (Hst1 : st1 = after_reading st)
      by (unfold check_time, bind, read_time_left, raise, ret in Ec;
          destruct (_ <? _); now inversion Ec).
    subst st1. simpl. lia.
Qed.

(** Every call of a search reads the clock at least once. *)
Lemma minimax_reads_clock (game : Game) (depth : nat) (mp : bool)
    (st : state Game) :
  (ticks st < ticks (snd (minimax self time_left game depth mp st)))%nat.
Proof.
  destruct depth; simpl; apply progress_after_check.
  - apply clocked_evaluate_here.
  - apply clocked_bind; [apply clocked_is_game_terminal | intros terminal].
    destruct terminal; [apply clocked_evaluate_here|].
    apply clocked_bind; [apply clocked_call_get_legal_moves | intros moves].
    destruct moves; [apply clocked_raise; discriminate|].
    apply clocked_minimax_loop. intros g. apply clocked_minimax.
Qed.

Lemma alphabeta_reads_clock (game : Game) (depth : nat) (alpha beta : num)
    (mp : bool) (st : state Game) :
  (ticks st <
   ticks (snd (alphabeta self time_left game depth alpha beta mp st)))%nat.
Proof.
  destruct depth; simpl; apply progress_after_check.
  - apply clocked_evaluate_here.
  - apply clocked_bind; [apply clocked_is_game_terminal | intros terminal].
    destruct terminal; [apply clocked_evaluate_here|].
    apply clocked_bind; [apply clocked_call_get_legal_moves | intros moves].
    destruct moves; [apply clocked_raise; discriminate|].
    apply clocked_alphabeta_loop. intros g a b'. apply clocked_alphabeta.
Qed.

Lemma search_reads_clock (game : Game) (depth : nat) (st : state Game) :
  (ticks st < ticks (snd (search self time_left game depth st)))%nat.
Proof.
  unfold search. destruct (method self);
    [apply minimax_reads_clock | apply alphabeta_reads_clock].
Qed.

(** *** The move returned by a completed search *)

Lemma minimax_loop_move (recur : Game -> M Game (option num * Move))
    (game : Game) (mp : bool) (moves : list Move) :
  forall score move st s m st',
    minimax_loop recur game mp moves score move st = (Ok (s, m), st') ->
    m = move \/ In m moves.
Proof.
  induction moves as [|x rest IH]; intros score move st s m st' E; simpl in E.
  - inversion E; subst. now left.
  - apply bind_ok_inv in E as (child & st1 & _ & E).
    apply bind_ok_inv in E as (r & st2 & _ & E).
    apply bind_ok_inv in E as (change & st3 & _ & E).
    destruct change; apply IH in E; simpl; intuition.
Qed.

Lemma alphabeta_loop_move
    (recur : Game -> num -> num -> M Game (option num * Move))
    (game : Game) (mp : bool) (moves : list Move) :
  forall alpha beta score move st s m st',
    alphabeta_loop recur game mp moves alpha beta score move st = (Ok (s, m), st') ->
    m = move \/ In m moves.
Proof.
  induction moves as [|x rest IH];
    intros alpha beta score move st s m st' E; simpl in E.
  - inversion E; subst. now left.
  - apply bind_ok_inv in E as (child & st1 & _ & E).
    apply bind_ok_inv in E as (r & st2 & _ & E).
    apply bind_ok_inv in E as (change & st3 & _ & E).
    destruct change.
    + apply bind_ok_inv in E as (ab & st4 & _ & E).
      destruct (alphabeta_cut_decision mp (fst ab) (snd ab)).
      * inversion E; subst. right. now left.
      * apply IH in E. simpl. intuition.
    + apply IH in E. simpl. intuition.
Qed.

(** Below the entry check, one ply of search on a position that has moves
    returns one of them. *)
Lemma minimax_move_legal (game : Game) (d : nat) (mp : bool)
    (st st' : state Game) (s : option num) (m : Move) :
  get_legal_moves game None <> [] ->
  minimax self time_left game (S d) mp st = (Ok (s, m), st') ->
  In m (get_legal_moves game None).
Proof.
  intros Hne E. simpl in E.
  apply bind_ok_inv in E as (u & st1 & _ & E).
  apply bind_ok_inv in E as (terminal & st2 & Et & E).
  rewrite is_game_terminal_run in Et. inversion Et; subst; clear Et.
  destruct (get_legal_moves game None) as [|m0 rest] eqn:Hm; [now elim Hne|].
  simpl in E.
  apply bind_ok_inv in E as (moves & st3 & Em & E).
  rewrite call_get_legal_moves_run, Hm in Em. inversion Em; subst; clear Em.
  apply minimax_loop_move in E. simpl in *. intuition.
Qed.

Lemma alphabeta_move_legal (game : Game) (d : nat) (alpha beta : num) (mp : bool)
    (st st' : state Game) (s : option num) (m : Move) :
  get_legal_moves game None <> [] ->
  alphabeta self time_left game (S d) alpha beta mp st = (Ok (s, m), st') ->
  In m (get_legal_moves game None).
Proof.
  intros Hne E. simpl in E.
  apply bind_ok_inv in E as (u & st1 & _ & E).
  apply bind_ok_inv in E as (terminal & st2 & Et & E).
  rewrite is_game_terminal_run in Et. inversion Et; subst; clear Et.
  destruct (get_legal_moves game None) as [|m0 rest] eqn:Hm; [now elim Hne|].
  simpl in E.
  apply bind_ok_inv in E as (moves & st3 & Em & E).
  rewrite call_get_legal_moves_run, Hm in Em. inversion Em; subst; clear Em.
  apply alphabeta_loop_move in E. simpl in *. intuition.
Qed.

Lemma search_move_legal (game : Game) (d : nat)
    (st st' : state Game) (s : option num) (m : Move) :
  get_legal_moves game None <> [] ->
  search self time_left game (S d) st = (Ok (s, m), st') ->
  In m (get_legal_moves game None).
Proof.
  unfold search. destruct (method self);
    [apply minimax_move_legal | apply alphabeta_move_legal].
Qed.

End Runs.

(** ** The iterative-deepening driver *)

Section Driver.
Context {Game Player : Type} `{Board Game Player}.
Variable self : CustomPlayer Game Player.
Variable time_left : nat -> Z.
Variable game : Game.

Lemma deepening_more_fuel (fuel : nat) :
  forall extra depth score move st x,
    deepening self time_left fuel game depth score move st = Some x ->
    deepening self time_left (fuel + extra) game depth score move st = Some x.
Proof.
  induction fuel as [|fuel IH]; intros extra depth score move st x E; simpl in *.
  - discriminate.
  - destruct (search self time_left game depth st) as [[[s m]|e] st1]; auto.
Qed.

(** Running the driver from the start is running it from any point the
    completed depths have led to. *)
Lemma deepening_completed (m0 : Move) (st0 : state Game) (d : nat)
    (kept : option num * Move) (st : state Game) :
  completed self time_left game m0 st0 d kept st ->
  forall fuel,
    deepening self time_left (d + fuel) game 1 None m0 st0 =
    deepening self time_left fuel game (S d) (fst kept) (snd kept) st.
Proof.
  induction 1 as [|d kept r st st' Hc IH Hs]; intros fuel.
  - reflexivity.
  - replace (S d + fuel)%nat with (d + S fuel)%nat by lia.
    rewrite IH. simpl. rewrite Hs. now destruct r.
Qed.

(** The driver stops at the first depth that raises, with the pair of the
    depth before. *)
Lemma deepening_interrupted (m0 : Move) (st0 : state Game) (d : nat)
    (kept : option num * Move) (st st' : state Game) (e : exn) (fuel : nat) :
  completed self time_left game m0 st0 d kept st ->
  search self time_left game (S d) st = (Raise e, st') ->
  (d < fuel)%nat ->
  deepening self time_left fuel game 1 None m0 st0 = Some (e, kept, st').
Proof.
  intros Hc Hs Hf.
  replace fuel with (d + S (fuel - S d))%nat by lia.
  rewrite (deepening_completed _ _ _ _ _ Hc). simpl. rewrite Hs.
  now destruct kept.
Qed.

(** Conversely, whatever the driver stops with was reached that way. *)
Lemma deepening_inv (fuel : nat) :
  forall (m0 : Move) (st0 : state Game) d kept st e kept' st',
    completed self time_left game m0 st0 d kept st ->
    deepening self time_left fuel game (S d) (fst kept) (snd kept) st =
      Some (e, kept', st') ->
    exists d' st1,
      completed self time_left game m0 st0 d' kept' st1 /\
      search self time_left game (S d') st1 = (Raise e, st').
Proof.
  induction fuel as [|fuel IH]; intros m0 st0 d kept st e kept' st' Hc E;
    simpl in E.
  - discriminate.
  - destruct (search self time_left game (S d) st) as [[[s m]|e1] st1] eqn:Es.
    + apply (IH m0 st0 (S d) (s, m) st1); [|exact E].
      now apply completed_next with (kept := kept) (st := st).
    + inversion E; subst. exists d, st. split; [|exact Es].
      now destruct kept.
Qed.

(** If some reading of the clock still to come is below the threshold, the
    driver stops. *)
Lemma deepening_stops (k : nat) :
  expired self time_left k ->
  forall n depth score move st,
    (k - ticks st < n)%nat -> (ticks st <= k)%nat ->
    exists x, deepening self time_left n game depth score move st = Some x.
Proof.
  intros Hx. induction n as [|n IH]; intros depth score move st Hn Hk.
  - lia.
  - simpl.
    destruct (search self time_left game depth st) as [[[s m]|e] st1] eqn:Es.
    + destruct (clocked_search self time_left game depth _ _ _ Es)
        as (_ & Hin & _).
      pose proof (search_reads_clock self time_left game depth st) as Hp.
      rewrite Es in Hp. simpl in Hp.
      destruct (Nat.lt_ge_cases k (ticks st1)) as [Hlt|Hge].
      * destruct (Hin k (conj Hk Hlt) Hx) as [Hbad _]. discriminate.
      * apply IH; lia.
    + eauto.
Qed.

(** The move held by the driver is the fallback or a move of the position. *)
Lemma completed_move (m0 : Move) (st0 : state Game) (d : nat)
    (kept : option num * Move) (st : state Game) :
  completed self time_left game m0 st0 d kept st ->
  get_legal_moves game None <> [] ->
  snd kept = m0 \/ In (snd kept) (get_legal_moves game None).
Proof.
  intros Hc Hne. destruct Hc as [|d kept r st st' Hc Hs].
  - now left.
  - right. destruct r as [s m]. now apply search_move_legal in Hs.
Qed.

End Driver.

(** ** The evaluation function *)

(** C5.  [custom_score] returns [-inf] when the player has lost, [+inf] when
    it has won (the loss being tested first), and otherwise the number of
    its legal moves minus the number of its opponent's legal moves. *)
Theorem custom_score_contract {Game Player : Type} `{Board Game Player}
    (game : Game) (player : Player) :
  (is_loser game player = true -> custom_score game player = NegInf) /\
  (is_loser game player = false -> is_winner game player = true ->
   custom_score game player = PosInf) /\
  (is_loser game player = false -> is_winner game player = false ->
   custom_score game player =
   Fin (Z.of_nat (length (get_legal_moves game (Some player))) -
        Z.of_nat (length (get_legal_moves game
                            (Some (get_opponent game player)))))).
Proof.
  unfold custom_score. repeat split.
  - intros ->. reflexivity.
  - intros -> ->. reflexivity.
  - intros -> ->. reflexivity.
Qed.

Lemma custom_score_contract_witness :
  (is_loser blocked_position true = true /\
   custom_score blocked_position true = NegInf) /\
  (is_loser blocked_position false = false /\
   is_winner blocked_position false = true /\
   custom_score blocked_position false = PosInf) /\
  (is_loser open_position true = false /\
   is_winner open_position true = false /\
   custom_score open_position true = Fin (3 - 2)).
Proof.
  split; [|split].
  - split; [reflexivity|].
    apply (proj1 (custom_score_contract blocked_position true)). reflexivity.
  - split; [reflexivity|]. split; [reflexivity|].
    apply (proj1 (proj2 (custom_score_contract blocked_position false)));
      reflexivity.
  - split; [reflexivity|]. split; [reflexivity|].
    exact (proj2 (proj2 (custom_score_contract open_position true))
             eq_refl eq_refl).
Defined.

(** On a board that never declares a player both loser and winner, a
    winner is valued [+inf]. *)
Lemma custom_score_winner {Game Player : Type} `{Board Game Player}
    (game : Game) (player : Player) :
  (is_loser game player && is_winner game player = false) ->
  is_winner game player = true ->
  custom_score game player = PosInf.
Proof.
  intros Hex Hw. rewrite Hw, andb_true_r in Hex.
  now apply (custom_score_contract game player).
Qed.

(** ** The searches and the facade *)

Section Entry.
Context {Game Player : Type} `{Board Game Player}.
Variable self : CustomPlayer Game Player.
Variable time_left : nat -> Z.

Lemma minimax_depth0_run (game : Game) (mp : bool) (st : state Game) :
  ~ expired self time_left (ticks st) ->
  minimax self time_left game 0 mp st =
  (Ok (Some (score self game (handle self)), NO_MOVE),
   after_call (EvScore game) (after_reading st)).
Proof.
  intros Hx. simpl. unfold bind at 1. now rewrite check_time_ok.
Qed.

Lemma alphabeta_depth0_run (game : Game) (alpha beta : num) (mp : bool)
    (st : state Game) :
  ~ expired self time_left (ticks st) ->
  alphabeta self time_left game 0 alpha beta mp st =
  (Ok (Some (score self game (handle self)), NO_MOVE),
   after_call (EvScore game) (after_reading st)).
Proof.
  intros Hx. simpl. unfold bind at 1. now rewrite check_time_ok.
Qed.

(** C9.  At depth 0, with the clock at or above the threshold, both
    searches return the evaluation of the position for the agent and the
    sentinel move, whether or not the position has moves; the only calls
    made are one reading of the clock and one evaluation. *)
Theorem depth_zero_evaluates (game : Game) (alpha beta : num) (mp : bool)
    (st : state Game) :
  ~ expired self time_left (ticks st) ->
  minimax self time_left game 0 mp st =
    (Ok (Some (score self game (handle self)), (-1, -1)),
     {| ticks := S (ticks st);
        trace := trace st ++ [EvTimeLeft; EvScore game] |}) /\
  alphabeta self time_left game 0 alpha beta mp st =
    (Ok (Some (score self game (handle self)), (-1, -1)),
     {| ticks := S (ticks st);
        trace := trace st ++ [EvTimeLeft; EvScore game] |}).
Proof.
  intros Hx.
  rewrite minimax_depth0_run, alphabeta_depth0_run by assumption.
  unfold after_call, after_reading, NO_MOVE. simpl.
  rewrite <- app_assoc. simpl. split; reflexivity.
Qed.


(** C4.  With no legal move, [get_move] returns the sentinel and leaves the
    state as it found it: the clock has not been read and nothing has been
    called, whereas any call of [minimax] or [alphabeta] reads the clock. *)
Theorem get_move_no_legal_moves (fuel : nat) (game : Game) (st : state Game) :
  get_move self time_left fuel game [] st = Some (Ok (-1, -1), st) /\
  (forall g d mp st0,
     (ticks st0 < ticks (snd (minimax self time_left g d mp st0)))%nat) /\
  (forall g d a b mp st0,
     (ticks st0 < ticks (snd (alphabeta self time_left g d a b mp st0)))%nat).
Proof.
  split; [reflexivity|]. split.
  - intros. apply minimax_reads_clock.
  - intros. apply alphabeta_reads_clock.
Qed.

End Entry.

Section Facade.
Context {Game Player : Type} `{Board Game Player}.
Variable self : CustomPlayer Game Player.
Variable time_left : nat -> Z.

Lemma after_try_ok (e : exn) (move m : Move) :
  after_try e move = Ok m -> e = Timeout /\ m = move.
Proof. destruct e; simpl; intros E; inversion E; auto. Qed.

Lemma after_try_no_timeout (e : exn) (move : Move) :
  after_try e move <> Raise Timeout.
Proof. destruct e; discriminate. Qed.

Lemma NO_MOVE_off_board : ~ on_board NO_MOVE.
Proof. unfold on_board, NO_MOVE. simpl. lia. Qed.

(** The move returned by [get_move] on a non-empty list that is the list of
    moves of the position. *)
Lemma get_move_in (fuel : nat) (game : Game) (m0 : Move) (rest : list Move)
    (st st' : state Game) (m : Move) :
  m0 :: rest = get_legal_moves game None ->
  (iterative self = false -> (1 <= search_depth self)%nat) ->
  get_move self time_left fuel game (m0 :: rest) st = Some (Ok m, st') ->
  In m (m0 :: rest).
Proof.
  intros Hlm Hd E.
  assert (Hne : get_legal_moves game None <> []) by (rewrite <- Hlm; discriminate).
  unfold get_move in E. destruct (iterative self) eqn:Hit.
  - destruct (deepening self time_left fuel game 1 None m0 st)
      as [[[e [s mv]] st1]|] eqn:Ed; [|discriminate].
    inversion E as [[Ea Est]]. apply after_try_ok in Ea as [-> ->].
    destruct (deepening_inv self time_left game fuel m0 st 0 (None, m0) st
                Timeout (s, mv) st1 (completed_none _ _ _ _ _) Ed)
      as (d' & st2 & Hc & _).
    apply completed_move in Hc; [|exact Hne]. simpl in Hc.
    rewrite <- Hlm in Hc. destruct Hc as [->|Hc]; [now left | exact Hc].
  - specialize (Hd eq_refl).
    destruct (search_depth self) as [|d]; [lia|].
    destruct (search self time_left game (S d) st) as [[[s mv]|e] st1] eqn:Es.
    + inversion E; subst. rewrite Hlm. eapply search_move_legal; eauto.
    + inversion E as [[Ea Est]]. apply after_try_ok in Ea as [_ ->]. now left.
Qed.

(** C3.  When [legal_moves] is the list of moves of the position, made of
    board cells, and the fixed search depth is strictly positive as the
    constructor documents, the move returned by [get_move] belongs to
    [legal_moves] when the list is not empty, and is the sentinel exactly
    when it is empty. *)
Theorem get_move_returns_legal_move (fuel : nat) (game : Game)
    (legal_moves : list Move) (st st' : state Game) (m : Move) :
  legal_moves = get_legal_moves game None ->
  Forall on_board legal_moves ->
  (iterative self = false -> (1 <= search_depth self)%nat) ->
  get_move self time_left fuel game legal_moves st = Some (Ok m, st') ->
  (legal_moves <> [] -> In m legal_moves) /\
  (m = (-1, -1) <-> legal_moves = []).
Proof.
  intros Hlm Hb Hd E. destruct legal_moves as [|m0 rest].
  - simpl in E. inversion E; subst. split; [intros X; now elim X|].
    split; auto.
  - assert (Hin : In m (m0 :: rest)) by (eapply get_move_in; eauto).
    split; [auto|]. split; [|discriminate].
    intros ->. rewrite Forall_forall in Hb.
    elim NO_MOVE_off_board. now apply Hb.
Qed.

(** [get_move] returns: at once in fixed-depth mode, and in iterative mode
    as soon as a reading of the clock still to come is below the threshold. *)
Lemma get_move_returns (game : Game) (legal_moves : list Move)
    (st : state Game) :
  (iterative self = false \/
   exists k, (ticks st <= k)%nat /\ expired self time_left k) ->
  exists fuel r st',
    get_move self time_left fuel game legal_moves st = Some (r, st').
Proof.
  intros Hs. unfold get_move. destruct legal_moves as [|m0 rest].
  - exists 0%nat. eauto.
  - destruct (iterative self) eqn:Hit.
    + destruct Hs as [Hs|(k & Hk & Hx)]; [discriminate|].
      destruct (deepening_stops self time_left game k Hx
                  (S (k - ticks st)) 1%nat None m0 st) as [[[e [s mv]] st1] Ed];
        [lia | exact Hk |].
      exists (S (k - ticks st)). rewrite Ed. eauto.
    + exists 0%nat.
      destruct (search self time_left game (search_depth self) st)
        as [[[s mv]|e] st1]; eauto.
Qed.

(** C7.  Whatever [get_move] returns, it is not a raised [Timeout]; and it
    does return (in fixed-depth mode, and in iterative mode once a coming
    reading of the clock is below the threshold).  A [Timeout] raised by the
    fixed-depth search yields the fallback, the first legal move; a
    [Timeout] raised by the driver's search at depth d+1 yields the move
    recorded by the completed depths 1..d (the fallback if d is 0). *)
Theorem get_move_never_raises_timeout (game : Game) (m0 : Move)
    (rest : list Move) (st : state Game) :
  (forall fuel legal_moves r st',
     get_move self time_left fuel game legal_moves st = Some (r, st') ->
     r <> Raise Timeout) /\
  (iterative self = false \/
   (exists k, (ticks st <= k)%nat /\ expired self time_left k) ->
   exists fuel r st',
     get_move self time_left fuel game (m0 :: rest) st = Some (r, st') /\
     r <> Raise Timeout) /\
  (iterative self = false ->
   forall fuel st',
     search self time_left game (search_depth self) st = (Raise Timeout, st') ->
     get_move self time_left fuel game (m0 :: rest) st = Some (Ok m0, st')) /\
  (iterative self = true ->
   forall d kept st1 st' fuel,
     completed self time_left game m0 st d kept st1 ->
     search self time_left game (S d) st1 = (Raise Timeout, st') ->
     (d < fuel)%nat ->
     get_move self time_left fuel game (m0 :: rest) st =
       Some (Ok (snd kept), st')).
Proof.
  assert (Hnever : forall fuel legal_moves r st',
             get_move self time_left fuel game legal_moves st = Some (r, st') ->
             r <> Raise Timeout).
  { intros fuel legal_moves r st' E. unfold get_move in E.
    destruct legal_moves as [|x xs].
    - inversion E; subst. discriminate.
    - destruct (iterative self).
      + destruct (deepening self time_left fuel game 1 None x st)
          as [[[e [s mv]] st1]|]; [|discriminate].
        inversion E; subst. apply after_try_no_timeout.
      + destruct (search self time_left game (search_depth self) st)
          as [[[s mv]|e] st1]; inversion E; subst.
        * discriminate.
        * apply after_try_no_timeout. }
  split; [exact Hnever|]. split; [|split].
  - intros Hs.
    destruct (get_move_returns game (m0 :: rest) st Hs) as (fuel & r & st' & E).
    exists fuel, r, st'. split; [exact E | eapply Hnever; eauto].
  - intros Hit fuel st' Es. unfold get_move. now rewrite Hit, Es.
  - intros Hit d kept st1 st' fuel Hc Es Hf. unfold get_move. rewrite Hit.
    rewrite (deepening_interrupted self time_left game m0 st d kept st1 st'
               Timeout fuel Hc Es Hf).
    now destruct kept.
Qed.

(** C8.  In iterative mode, when the searches at depths 1..d have completed
    and the search at depth d+1 raises [Timeout], the pair held by the
    driver is the result of depth d (the fallback when d is 0) and
    [get_move] returns its move.  In particular, when depth 1 completes and
    depth 2 raises [Timeout], [get_move] returns the move of depth 1. *)
Theorem interrupted_depth_is_discarded (game : Game) (m0 : Move)
    (rest : list Move) (st0 : state Game) :
  iterative self = true ->
  (forall d kept st st' fuel,
     completed self time_left game m0 st0 d kept st ->
     search self time_left game (S d) st = (Raise Timeout, st') ->
     (d < fuel)%nat ->
     deepening self time_left fuel game 1 None m0 st0 =
       Some (Timeout, kept, st') /\
     get_move self time_left fuel game (m0 :: rest) st0 =
       Some (Ok (snd kept), st')) /\
  (forall r1 st1 st2 fuel,
     search self time_left game 1 st0 = (Ok r1, st1) ->
     search self time_left game 2 st1 = (Raise Timeout, st2) ->
     (2 <= fuel)%nat ->
     get_move self time_left fuel game (m0 :: rest) st0 =
       Some (Ok (snd r1), st2)).
Proof.
  intros Hit.
  assert (Hgen : forall d kept st st' fuel,
     completed self time_left game m0 st0 d kept st ->
     search self time_left game (S d) st = (Raise Timeout, st') ->
     (d < fuel)%nat ->
     deepening self time_left fuel game 1 None m0 st0 =
       Some (Timeout, kept, st') /\
     get_move self time_left fuel game (m0 :: rest) st0 =
       Some (Ok (snd kept), st')).
  { intros d kept st st' fuel Hc Es Hf.
    pose proof (deepening_interrupted self time_left game m0 st0 d kept st st'
                  Timeout fuel Hc Es Hf) as Ed.
    split; [exact Ed|]. unfold get_move. rewrite Hit, Ed. now destruct kept. }
  split; [exact Hgen|].
  intros r1 st1 st2 fuel E1 E2 Hf.
  apply (Hgen 1%nat r1 st1 st2 fuel); [|exact E2 | lia].
  eapply completed_next; [apply completed_none | exact E1].
Qed.

End Facade.

(** ** A search that returns no score *)

Section NoScore.
Context {Game Player : Type} `{Board Game Player}.
Variable self : CustomPlayer Game Player.
Variable time_left : nat -> Z.
Hypothesis in_time : forall k, ~ expired self time_left k.

(** The loop of a maximizing ply one level above the leaves, when every
    successor is valued [-inf]: the running best is never replaced. *)
Lemma minimax_loop_all_lost (game : Game) (m0 : Move) (moves : list Move) :
  (forall m, In m moves ->
             score self (forecast_move game m) (handle self) = NegInf) ->
  forall st,
    fst (minimax_loop (fun child => minimax self time_left child 0 false)
           game true moves None m0 st) = Ok (None, m0).
Proof.
  induction moves as [|m rest IH]; intros Hall st; cbn [minimax_loop].
  - reflexivity.
  - unfold bind at 1. rewrite call_forecast_move_run. cbv beta iota.
    unfold bind at 1. rewrite minimax_depth0_run by apply in_time.
    rewrite (Hall m) by now left. cbv beta iota.
    unfold bind at 1, lift. cbn [fst minimax_change_decision].
    rewrite minimax_change_decision_first. cbn [num_ltb]. cbv beta iota.
    apply IH. intros x Hx. apply Hall. now right.
Qed.

Lemma minimax_all_lost (game : Game) (m0 : Move) (rest : list Move)
    (st : state Game) :
  get_legal_moves game None = m0 :: rest ->
  (forall m, In m (m0 :: rest) ->
             score self (forecast_move game m) (handle self) = NegInf) ->
  fst (minimax self time_left game 1 true st) = Ok (None, m0).
Proof.
  intros Hm Hall.
  change (minimax self time_left game 1 true st) with
    ((check_time self time_left ;;;
      terminal <- is_game_terminal game ;;
      if terminal then evaluate_here self game
      else
        moves <- call_get_legal_moves game ;;
        match moves with
        | [] => raise IndexError
        | p :: _ =>
            minimax_loop
              (fun child => minimax self time_left child 0 (negb true))
              game true moves None p
        end) st).
  unfold bind at 1. rewrite check_time_ok by apply in_time. cbv beta iota.
  unfold bind at 1. rewrite is_game_terminal_run, Hm.
  cbn [length Nat.eqb]. cbv beta iota.
  unfold bind at 1. rewrite call_get_legal_moves_run, Hm. cbv beta iota.
  now apply minimax_loop_all_lost.
Qed.

(** C10.  With a clock that stays at or above the threshold, a maximizing
    ply one level above the leaves all of whose successors are valued
    [-inf] returns [None] as its score, with its first legal move; and a
    minimizing ply whose first move leads to such a position then orders
    that [None] against a float, which raises [TypeError]. *)
Theorem minimax_score_may_be_None (game : Game) (m0 : Move) (rest : list Move) :
  get_legal_moves game None = m0 :: rest ->
  (forall m, In m (m0 :: rest) ->
             score self (forecast_move game m) (handle self) = NegInf) ->
  (forall st, fst (minimax self time_left game 1 true st) = Ok (None, m0)) /\
  (forall parent p0 others st,
     get_legal_moves parent None = p0 :: others ->
     forecast_move parent p0 = game ->
     fst (minimax self time_left parent 2 false st) = Raise TypeError).
Proof.
  intros Hm Hall.
  assert (Hnone : forall st,
            fst (minimax self time_left game 1 true st) = Ok (None, m0))
    by (intros st; now apply minimax_all_lost with (rest := rest)).
  split; [exact Hnone|].
  intros parent p0 others st Hp Hf.
  change (minimax self time_left parent 2 false st) with
    ((check_time self time_left ;;;
      terminal <- is_game_terminal parent ;;
      if terminal then evaluate_here self parent
      else
        moves <- call_get_legal_moves parent ;;
        match moves with
        | [] => raise IndexError
        | p :: _ =>
            minimax_loop
              (fun child => minimax self time_left child 1 (negb false))
              parent false moves None p
        end) st).
  unfold bind at 1. rewrite check_time_ok by apply in_time. cbv beta iota.
  unfold bind at 1. rewrite is_game_terminal_run, Hp.
  cbn [length Nat.eqb]. cbv beta iota.
  unfold bind at 1. rewrite call_get_legal_moves_run, Hp. cbv beta iota.
  cbn [minimax_loop].
  unfold bind at 1. rewrite call_forecast_move_run, Hf. cbv beta iota.
  unfold bind at 1. cbn [negb].
  specialize (Hnone (after_call (EvForecast parent p0)
                       (after_call (EvLegalMoves parent)
                          (after_call (EvLegalMoves parent) (after_reading st))))).
  destruct (minimax self time_left game 1 true _) as [r st1].
  simpl in Hnone. subst r. reflexivity.
Qed.

End NoScore.

(** ** Where the two searches agree *)

Section Agreement.
Context {Game Player : Type} `{Board Game Player}.
Variable self : CustomPlayer Game Player.
Variable time_left : nat -> Z.
Hypothesis in_time : forall k, ~ expired self time_left k.

Lemma num_geb_PosInf (a : num) : num_geb a PosInf = true -> a = PosInf.
Proof. destruct a; simpl; intros E; try discriminate; reflexivity. Qed.

(** Once the running best of a maximizing ply above the leaves is [+inf],
    no later sibling replaces it. *)
Lemma minimax_loop_won (game : Game) (moves : list Move) :
  forall move st,
    fst (minimax_loop (fun child => minimax self time_left child 0 false)
           game true moves (Some PosInf) move st) = Ok (Some PosInf, move).
Proof.
  induction moves as [|m rest IH]; intros move st; cbn [minimax_loop].
  - reflexivity.
  - unfold bind at 1. rewrite call_forecast_move_run. cbv beta iota.
    unfold bind at 1. rewrite minimax_depth0_run by apply in_time.
    cbv beta iota. unfold bind at 1, lift. cbn [fst].
    rewrite minimax_change_decision_some. cbn [py_or truthy].
    rewrite num_ltb_PosInf. cbv beta iota. apply IH.
Qed.

(** One ply above the leaves, on a maximizing ply with [beta = +inf], the
    loop of [alphabeta] only stops early on a score of [+inf], which the
    loop of [minimax] then keeps to the end. *)
Lemma loops_agree_above_leaves (game : Game) (moves : list Move) :
  forall alpha best move st1 st2,
    alpha <> PosInf ->
    fst (minimax_loop (fun child => minimax self time_left child 0 false)
           game true moves best move st1) =
    fst (alphabeta_loop
           (fun child a b => alphabeta self time_left child 0 a b false)
           game true moves alpha PosInf best move st2).
Proof.
  induction moves as [|m rest IH]; intros alpha best move st1 st2 Ha;
    cbn [minimax_loop alphabeta_loop].
  - reflexivity.
  - unfold bind at 1. rewrite call_forecast_move_run. cbv beta iota.
    unfold bind at 1. rewrite minimax_depth0_run by apply in_time.
    cbv beta iota. unfold bind at 1, lift. cbn [fst].
    unfold bind at 1. rewrite call_forecast_move_run. cbv beta iota.
    unfold bind at 1. rewrite alphabeta_depth0_run by apply in_time.
    cbv beta iota. unfold bind at 1, lift. cbn [fst].
    set (v := score self (forecast_move game m) (handle self)).
    rewrite minimax_change_decision_some. cbv beta iota.
    destruct (num_ltb (py_or best NegInf) v); [|now apply IH].
    unfold bind at 1. unfold alphabeta_update, py_and, py_gt, py_lt, obind.
    cbn [negb].
    destruct (num_ltb alpha v) eqn:Hav; cbv beta iota; cbn [fst snd].
    + unfold alphabeta_cut_decision. cbn [andb negb].
      destruct (num_geb v PosInf) eqn:Hcut.
      * apply num_geb_PosInf in Hcut. rewrite Hcut. cbn [fst ret].
        apply minimax_loop_won.
      * apply IH. intros ->. discriminate.
    + unfold alphabeta_cut_decision. cbn [andb negb].
      destruct (num_geb alpha PosInf) eqn:Hcut.
      * apply num_geb_PosInf in Hcut. contradiction.
      * now apply IH.
Qed.

(** X14.  With a clock that stays at or above the threshold, the top-level
    calls of the two searches return the same pair at depth 1, whatever the
    evaluation function. *)
Lemma searches_agree_at_depth_1 (game : Game) (st : state Game) :
  fst (minimax self time_left game 1 true st) =
  fst (alphabeta self time_left game 1 NegInf PosInf true st).
Proof.
  change (minimax self time_left game 1 true st) with
    ((check_time self time_left ;;;
      terminal <- is_game_terminal game ;;
      if terminal then evaluate_here self game
      else
        moves <- call_get_legal_moves game ;;
        match moves with
        | [] => raise IndexError
        | p :: _ =>
            minimax_loop
              (fun child => minimax self time_left child 0 (negb true))
              game true moves None p
        end) st).
  change (alphabeta self time_left game 1 NegInf PosInf true st) with
    ((check_time self time_left ;;;
      terminal <- is_game_terminal game ;;
      if terminal then evaluate_here self game
      else
        moves <- call_get_legal_moves game ;;
        match moves with
        | [] => raise IndexError
        | p :: _ =>
            alphabeta_loop
              (fun child a b =>
                 alphabeta self time_left child 0 a b (negb true))
              game true moves NegInf PosInf None p
        end) st).
  rewrite !(bind_run _ _ _ _ _ (check_time_ok self time_left st (in_time _))).
  rewrite !(bind_run _ _ _ _ _ (is_game_terminal_run game _)).
  destruct (Nat.eqb (length (get_legal_moves game None)) 0); [reflexivity|].
  rewrite !(bind_run _ _ _ _ _ (call_get_legal_moves_run game _)).
  destruct (get_legal_moves game None) as [|m0 rest]; [reflexivity|].
  cbn [negb]. apply loops_agree_above_leaves. discriminate.
Qed.

End Agreement.

(** ** The searches on explicit game trees *)

(** Both searches agree at depth 0, state included. *)
Lemma searches_agree_at_depth_0 {Game Player : Type} `{Board Game Player}
    (self : CustomPlayer Game Player) (time_left : nat -> Z)
    (game : Game) (st : state Game) :
  minimax self time_left game 0 true st =
  alphabeta self time_left game 0 NegInf PosInf true st.
Proof. reflexivity. Qed.

(** C1.  The selection rule reads a running best of [0.0] as "no running
    best": on a maximizing ply a proposed [-1.0] replaces a best of [0.0]
    although it is not greater, on a minimizing ply a proposed [1.0]
    replaces it although it is not less, and a proposed [0.0] replaces an
    equal best.  Of two sibling moves both valued [0.0] the searches select
    the second one enumerated. *)
Theorem change_decision_reads_zero_as_no_best :
  minimax_change_decision true (Some (Fin (-1))) (Some (Fin 0)) = Ok true /\
  num_ltb (Fin 0) (Fin (-1)) = false /\
  minimax_change_decision false (Some (Fin 1)) (Some (Fin 0)) = Ok true /\
  num_ltb (Fin 1) (Fin 0) = false /\
  minimax_change_decision true (Some (Fin 0)) (Some (Fin 0)) = Ok true /\
  get_legal_moves tie_tree None = [(0, 0); (0, 1)] /\
  fst (minimax (tree_player false 1 Minimax) plenty tie_tree 1 true start) =
    Ok (Some (Fin 0), (0, 1)) /\
  fst (alphabeta (tree_player false 1 Alphabeta) plenty tie_tree 1
         NegInf PosInf true start) =
    Ok (Some (Fin 0), (0, 1)).
Proof. repeat split; vm_compute; reflexivity. Qed.

(** Away from [0.0] the tie is broken as intended: of two sibling moves
    both valued [3.0] the first one enumerated is selected. *)
Lemma first_of_equal_nonzero_scores :
  fst (minimax (tree_player false 1 Minimax) plenty tie3_tree 1 true start) =
    Ok (Some (Fin 3), (0, 0)) /\
  fst (alphabeta (tree_player false 1 Alphabeta) plenty tie3_tree 1
         NegInf PosInf true start) =
    Ok (Some (Fin 3), (0, 0)).
Proof. split; vm_compute; reflexivity. Qed.

(** C2.  On [parity_tree], at depth 2 and with a clock that never comes
    near the threshold, [minimax] returns the score [5.0] with the second
    move and [alphabeta] the score [1.0] with the third move; [get_move]
    accordingly returns different moves for the two methods. *)
Theorem minimax_alphabeta_differ_on_parity_tree :
  (forall k, ~ expired (tree_player false 2 Minimax) plenty k) /\
  fst (minimax (tree_player false 2 Minimax) plenty parity_tree 2 true start) =
    Ok (Some (Fin 5), (0, 1)) /\
  fst (alphabeta (tree_player false 2 Alphabeta) plenty parity_tree 2
         NegInf PosInf true start) =
    Ok (Some (Fin 1), (0, 2)) /\
  option_map fst
    (get_move (tree_player false 2 Minimax) plenty 0 parity_tree
       (get_legal_moves parity_tree None) start) = Some (Ok (0, 1)) /\
  option_map fst
    (get_move (tree_player false 2 Alphabeta) plenty 0 parity_tree
       (get_legal_moves parity_tree None) start) = Some (Ok (0, 2)).
Proof.
  split.
  - intros k. unfold expired, plenty. simpl. lia.
  - repeat split; vm_compute; reflexivity.
Qed.

(** A [TypeError] leaves [get_move]: three plies above leaves valued
    [-inf], the fixed-depth search orders [None] against [+inf]. *)
Lemma get_move_may_raise_TypeError :
  option_map fst
    (get_move (tree_player false 3 Minimax) plenty 0 top_doomed
       (get_legal_moves top_doomed None) start) = Some (Raise TypeError).
Proof. vm_compute. reflexivity. Qed.

(** ** Instances *)

Lemma depth_zero_evaluates_witness :
  ~ expired (tree_player false 2 Minimax) plenty (ticks start) /\
  minimax (tree_player false 2 Minimax) plenty tie_tree 0 true start =
    (Ok (Some (Fin 0), (-1, -1)),
     {| ticks := 1; trace := [EvTimeLeft; EvScore tie_tree] |}) /\
  alphabeta (tree_player false 2 Minimax) plenty tie_tree 0 NegInf PosInf true
    start =
    (Ok (Some (Fin 0), (-1, -1)),
     {| ticks := 1; trace := [EvTimeLeft; EvScore tie_tree] |}).
Proof.
  assert (Hx : ~ expired (tree_player false 2 Minimax) plenty (ticks start))
    by (unfold expired, plenty; simpl; lia).
  split; [exact Hx|].
  exact (depth_zero_evaluates (tree_player false 2 Minimax) plenty tie_tree
           NegInf PosInf true start Hx).
Defined.


Lemma get_move_returns_legal_move_witness :
  get_legal_moves parity_tree None = [(0, 0); (0, 1); (0, 2)] /\
  Forall on_board [(0, 0); (0, 1); (0, 2)] /\
  (1 <= search_depth (tree_player false 2 Minimax))%nat /\
  exists st',
    get_move (tree_player false 2 Minimax) plenty 0 parity_tree
      [(0, 0); (0, 1); (0, 2)] start = Some (Ok (0, 1), st') /\
    (([(0, 0); (0, 1); (0, 2)] : list Move) <> [] ->
     In ((0, 1) : Move) [(0, 0); (0, 1); (0, 2)]) /\
    (((0, 1) : Move) = (-1, -1) <-> ([(0, 0); (0, 1); (0, 2)] : list Move) = []).
Proof.
  assert (Hb : Forall on_board [(0, 0); (0, 1); (0, 2)])
    by (repeat constructor; simpl; lia).
  split; [reflexivity|]. split; [exact Hb|]. split; [simpl; lia|].
  eexists. split; [vm_compute; reflexivity|].
  eapply (get_move_returns_legal_move (tree_player false 2 Minimax) plenty 0
            parity_tree [(0, 0); (0, 1); (0, 2)] start).
  - reflexivity.
  - exact Hb.
  - intros _. simpl. lia.
  - vm_compute. reflexivity.
Defined.

(** C3, without a condition on the fixed depth, fails: with
    [search_depth = 0] in fixed-depth mode, on a position with the two legal
    moves (0,0) and (0,1), the search stops at depth 0 with the sentinel and
    [get_move] returns (-1,-1), which is not one of the legal moves although
    the list is not empty. *)
Lemma get_move_depth_zero_returns_sentinel :
  iterative (tree_player false 0 Minimax) = false /\
  search_depth (tree_player false 0 Minimax) = 0%nat /\
  get_legal_moves tie_tree None = [(0, 0); (0, 1)] /\
  Forall on_board [(0, 0); (0, 1)] /\
  option_map fst
    (get_move (tree_player false 0 Minimax) plenty 0 tie_tree
       [(0, 0); (0, 1)] start) = Some (Ok (-1, -1)) /\
  option_map fst
    (get_move (tree_player false 0 Alphabeta) plenty 0 tie_tree
       [(0, 0); (0, 1)] start) = Some (Ok (-1, -1)) /\
  ~ In ((-1, -1) : Move) [(0, 0); (0, 1)] /\
  ~ ((([(0, 0); (0, 1)] : list Move) <> [] ->
      In ((-1, -1) : Move) [(0, 0); (0, 1)]) /\
     (((-1, -1) : Move) = (-1, -1) <-> ([(0, 0); (0, 1)] : list Move) = [])).
Proof.
  assert (Hnot : ~ In ((-1, -1) : Move) [(0, 0); (0, 1)])
    by (intros [E|[E|[]]]; discriminate E).
  split; [reflexivity|]. split; [reflexivity|]. split; [reflexivity|].
  split; [repeat constructor; simpl; lia|].
  split; [vm_compute; reflexivity|]. split; [vm_compute; reflexivity|].
  split; [exact Hnot|].
  intros [Hin _]. apply Hnot, Hin. discriminate.
Qed.

(** The iterative agent on [parity_tree] with a clock starting at 15 ms:
    depth 1 completes after four readings, depth 2 is interrupted on the
    seventh. *)
Lemma get_move_never_raises_timeout_witness :
  ((exists k, (ticks start <= k)%nat /\
              expired (tree_player true 2 Minimax) (countdown 15) k) /\
   exists fuel r st',
     get_move (tree_player true 2 Minimax) (countdown 15) fuel parity_tree
       [(0, 0); (0, 1); (0, 2)] start = Some (r, st') /\
     r <> Raise Timeout) /\
  (fst (search (tree_player false 2 Minimax) (countdown 11) parity_tree 2 start) =
     Raise Timeout /\
   option_map fst
     (get_move (tree_player false 2 Minimax) (countdown 11) 0 parity_tree
        [(0, 0); (0, 1); (0, 2)] start) = Some (Ok (0, 0))) /\
  (fst (search (tree_player true 2 Minimax) (countdown 15) parity_tree 1 start) =
     Ok (Some (Fin 0), (0, 2)) /\
   fst (search (tree_player true 2 Minimax) (countdown 15) parity_tree 2
          (snd (search (tree_player true 2 Minimax) (countdown 15)
                  parity_tree 1 start))) = Raise Timeout /\
   option_map fst
     (get_move (tree_player true 2 Minimax) (countdown 15) 5 parity_tree
        [(0, 0); (0, 1); (0, 2)] start) = Some (Ok (0, 2))).
Proof.
  assert (Hk : exists k, (ticks start <= k)%nat /\
                         expired (tree_player true 2 Minimax) (countdown 15) k)
    by (exists 6%nat; unfold expired, countdown; simpl; split; lia).
  split; [|split].
  - split; [exact Hk|].
    exact (proj1 (proj2 (get_move_never_raises_timeout
                           (tree_player true 2 Minimax) (countdown 15)
                           parity_tree (0, 0) [(0, 1); (0, 2)] start))
             (or_intror Hk)).
  - split; [vm_compute; reflexivity|].
    rewrite (proj1 (proj2 (proj2 (get_move_never_raises_timeout
                                    (tree_player false 2 Minimax) (countdown 11)
                                    parity_tree (0, 0) [(0, 1); (0, 2)] start)))
               eq_refl 0%nat
               (snd (search (tree_player false 2 Minimax) (countdown 11)
                       parity_tree 2 start))).
    + reflexivity.
    + vm_compute. reflexivity.
  - split; [vm_compute; reflexivity|]. split; [vm_compute; reflexivity|].
    rewrite (proj2 (proj2 (proj2 (get_move_never_raises_timeout
                                    (tree_player true 2 Minimax) (countdown 15)
                                    parity_tree (0, 0) [(0, 1); (0, 2)] start)))
               eq_refl 1%nat (Some (Fin 0), (0, 2))
               (snd (search (tree_player true 2 Minimax) (countdown 15)
                       parity_tree 1 start))
               (snd (search (tree_player true 2 Minimax) (countdown 15)
                       parity_tree 2
                       (snd (search (tree_player true 2 Minimax) (countdown 15)
                               parity_tree 1 start))))
               5%nat).
    + reflexivity.
    + eapply completed_next; [apply completed_none | vm_compute; reflexivity].
    + vm_compute. reflexivity.
    + lia.
Defined.

(** The same agent: interrupted during depth 2 it returns the move of
    depth 1; with a clock starting at 11 ms it is interrupted during depth 1
    and returns the fallback. *)
Lemma interrupted_depth_is_discarded_witness :
  iterative (tree_player true 2 Minimax) = true /\
  (fst (search (tree_player true 2 Minimax) (countdown 11) parity_tree 1 start) =
     Raise Timeout /\
   option_map fst
     (get_move (tree_player true 2 Minimax) (countdown 11) 1 parity_tree
        [(0, 0); (0, 1); (0, 2)] start) = Some (Ok (0, 0))) /\
  (fst (search (tree_player true 2 Minimax) (countdown 15) parity_tree 1 start) =
     Ok (Some (Fin 0), (0, 2)) /\
   fst (search (tree_player true 2 Minimax) (countdown 15) parity_tree 2
          (snd (search (tree_player true 2 Minimax) (countdown 15)
                  parity_tree 1 start))) = Raise Timeout /\
   option_map fst
     (get_move (tree_player true 2 Minimax) (countdown 15) 2 parity_tree
        [(0, 0); (0, 1); (0, 2)] start) = Some (Ok (0, 2))).
Proof.
  split; [reflexivity|]. split.
  - split; [vm_compute; reflexivity|].
    assert (E : search (tree_player true 2 Minimax) (countdown 11) parity_tree
                  1 start =
                (Raise Timeout,
                 snd (search (tree_player true 2 Minimax) (countdown 11)
                        parity_tree 1 start)))
      by (vm_compute; reflexivity).
    destruct (proj1 (interrupted_depth_is_discarded
                       (tree_player true 2 Minimax) (countdown 11)
                       parity_tree (0, 0) [(0, 1); (0, 2)] start eq_refl)
                0%nat (None, (0, 0)) start _ 1%nat
                (completed_none _ _ _ _ _) E (Nat.le_refl 1)) as [_ Hg].
    exact (f_equal (option_map fst) Hg).
  - split; [vm_compute; reflexivity|]. split; [vm_compute; reflexivity|].
    rewrite (proj2 (interrupted_depth_is_discarded
                      (tree_player true 2 Minimax) (countdown 15)
                      parity_tree (0, 0) [(0, 1); (0, 2)] start eq_refl)
               (Some (Fin 0), (0, 2))
               (snd (search (tree_player true 2 Minimax) (countdown 15)
                       parity_tree 1 start))
               (snd (search (tree_player true 2 Minimax) (countdown 15)
                       parity_tree 2
                       (snd (search (tree_player true 2 Minimax) (countdown 15)
                               parity_tree 1 start))))
               2%nat).
    + reflexivity.
    + vm_compute. reflexivity.
    + vm_compute. reflexivity.
    + lia.
Defined.

Lemma minimax_score_may_be_None_witness :
  (forall k, ~ expired (tree_player false 2 Minimax) plenty k) /\
  get_legal_moves doomed_tree None = [(2, 1); (1, 2)] /\
  (forall m, In m [(2, 1); (1, 2)] ->
             score (tree_player false 2 Minimax) (forecast_move doomed_tree m)
               (handle (tree_player false 2 Minimax)) = NegInf) /\
  fst (minimax (tree_player false 2 Minimax) plenty doomed_tree 1 true start) =
    Ok (None, (2, 1)) /\
  fst (minimax (tree_player false 2 Minimax) plenty above_doomed 2 false start) =
    Raise TypeError.
Proof.
  assert (Ht : forall k, ~ expired (tree_player false 2 Minimax) plenty k)
    by (intros k; unfold expired, plenty; simpl; lia).
  assert (Hall : forall m, In m [(2, 1); (1, 2)] ->
             score (tree_player false 2 Minimax) (forecast_move doomed_tree m)
               (handle (tree_player false 2 Minimax)) = NegInf)
    by (intros m [<-|[<-|[]]]; reflexivity).
  assert (Hm : get_legal_moves doomed_tree None = [(2, 1); (1, 2)])
    by reflexivity.
  split; [exact Ht|]. split; [exact Hm|]. split; [exact Hall|].
  destruct (minimax_score_may_be_None (tree_player false 2 Minimax) plenty Ht
              doomed_tree (2, 1) [(1, 2)] Hm Hall) as [Hnone Habove].
  split.
  - apply Hnone.
  - apply (Habove above_doomed (0, 0) []); reflexivity.
Defined.

(** * Further properties of the code *)

(** ** The bounds of alpha-beta *)

Lemma num_ltb_trans (a b c : num) :
  num_ltb a b = true -> num_ltb b c = true -> num_ltb a c = true.
Proof.
  destruct a, b, c; simpl; intros H1 H2; try discriminate; try reflexivity.
  apply Z.ltb_lt in H1, H2. apply Z.ltb_lt. lia.
Qed.

Lemma num_ltb_asym (a b : num) : num_ltb a b = true -> num_ltb b a = false.
Proof.
  destruct a, b; simpl; intros H1; try discriminate; try reflexivity.
  apply Z.ltb_lt in H1. apply Z.ltb_ge. lia.
Qed.

(** What [alphabeta_update] returns. *)
Lemma alphabeta_update_some (maxplayer : bool) (alpha beta p : num) :
  alphabeta_update maxplayer alpha beta (Some p) =
    Ok (if maxplayer then num_max alpha p else alpha,
        if maxplayer then beta else num_min beta p).
Proof.
  unfold alphabeta_update, py_and, py_gt, py_lt, obind, num_max, num_min.
  destruct maxplayer; simpl.
  - now destruct (num_ltb alpha p).
  - now destruct (num_ltb p beta).
Qed.

Lemma alphabeta_update_none (maxplayer : bool) (alpha beta : num) :
  alphabeta_update maxplayer alpha beta None = Raise TypeError.
Proof. destruct maxplayer; reflexivity. Qed.

(** X1.  [alphabeta_update] never widens the window and only moves the
    bound of the side to move: on a maximizing ply [beta] is kept and
    [alpha] becomes the larger of [alpha] and the proposed score; on a
    minimizing ply [alpha] is kept and [beta] becomes the smaller of [beta]
    and the proposed score.  A proposed [None] raises [TypeError]. *)
Theorem alphabeta_update_narrows (maxplayer : bool) (alpha beta p : num) :
  alphabeta_update maxplayer alpha beta (Some p) =
    Ok (if maxplayer then num_max alpha p else alpha,
        if maxplayer then beta else num_min beta p) /\
  num_ltb (if maxplayer then num_max alpha p else alpha) alpha = false /\
  num_ltb beta (if maxplayer then beta else num_min beta p) = false /\
  alphabeta_update maxplayer alpha beta None = Raise TypeError.
Proof.
  split; [apply alphabeta_update_some|].
  split; [|split; [|apply alphabeta_update_none]].
  - unfold num_max. destruct maxplayer; [|apply num_ltb_irrefl].
    destruct (num_ltb alpha p) eqn:E;
      auto using num_ltb_irrefl, num_ltb_asym.
  - unfold num_min. destruct maxplayer; [apply num_ltb_irrefl|].
    destruct (num_ltb p beta) eqn:E;
      auto using num_ltb_irrefl, num_ltb_asym.
Qed.

(** X2.  Starting from an open window, the cut-off that follows an update
    fires exactly when the proposed score has reached the bound of the
    other side: [proposed >= beta] on a maximizing ply, [proposed <= alpha]
    on a minimizing ply. *)
Theorem cut_after_update (maxplayer : bool) (alpha beta p a' b' : num) :
  num_ltb alpha beta = true ->
  alphabeta_update maxplayer alpha beta (Some p) = Ok (a', b') ->
  (alphabeta_cut_decision maxplayer a' b' = true <->
   (if maxplayer then num_ltb p beta else num_ltb alpha p) = false).
Proof.
  intros Hw E.
  rewrite alphabeta_update_some in E. inversion E; subst; clear E.
  unfold alphabeta_cut_decision, num_geb, num_max, num_min.
  destruct maxplayer; simpl.
  - destruct (num_ltb alpha p) eqn:Hp.
    + destruct (num_ltb p beta); simpl; split; auto; discriminate.
    + rewrite Hw. simpl. split; [discriminate|]. intros Hb.
      destruct alpha, beta, p; simpl in *; try discriminate.
      apply Z.ltb_lt in Hw. apply Z.ltb_ge in Hp, Hb. lia.
  - destruct (num_ltb p beta) eqn:Hp.
    + destruct (num_ltb alpha p); simpl; split; auto; discriminate.
    + rewrite Hw. simpl. split; [discriminate|]. intros Hb.
      destruct alpha, beta, p; simpl in *; try discriminate.
      apply Z.ltb_lt in Hw. apply Z.ltb_ge in Hp, Hb. lia.
Qed.

Lemma cut_after_update_witness :
  num_ltb (Fin 2) (Fin 6) = true /\
  alphabeta_update true (Fin 2) (Fin 6) (Some (Fin 7)) = Ok (Fin 7, Fin 6) /\
  (alphabeta_cut_decision true (Fin 7) (Fin 6) = true <->
   num_ltb (Fin 7) (Fin 6) = false).
Proof.
  split; [reflexivity|]. split; [reflexivity|].
  exact (cut_after_update true (Fin 2) (Fin 6) (Fin 7) (Fin 7) (Fin 6)
           eq_refl eq_refl).
Defined.

(** ** The evaluation function, seen from both sides *)

(** X3.  On a position where neither player has lost or won, and on a
    board whose [get_opponent] is an involution, the evaluation for the
    opponent is the opposite of the evaluation for the player. *)
Theorem custom_score_antisymmetric {Game Player : Type} `{Board Game Player}
    (game : Game) (player : Player) :
  get_opponent game (get_opponent game player) = player ->
  is_loser game player = false -> is_winner game player = false ->
  is_loser game (get_opponent game player) = false ->
  is_winner game (get_opponent game player) = false ->
  exists z,
    custom_score game player = Fin z /\
    custom_score game (get_opponent game player) = Fin (- z).
Proof.
  intros Hinv Hl Hw Hl' Hw'. unfold custom_score.
  rewrite Hl, Hw, Hl', Hw', Hinv.
  eexists. split; [reflexivity|]. f_equal. lia.
Qed.

Lemma custom_score_antisymmetric_witness :
  custom_score open_position true = Fin 1 /\
  custom_score open_position false = Fin (-1).
Proof.
  assert (Hinv : get_opponent open_position (get_opponent open_position true)
                 = true) by reflexivity.
  assert (Hl : is_loser open_position true = false) by reflexivity.
  assert (Hw : is_winner open_position true = false) by reflexivity.
  assert (Hl' : is_loser open_position (get_opponent open_position true)
                = false) by reflexivity.
  assert (Hw' : is_winner open_position (get_opponent open_position true)
                = false) by reflexivity.
  destruct (custom_score_antisymmetric open_position true Hinv Hl Hw Hl' Hw')
    as (z & Hp & Ho).
  assert (Hz : z = 1) by (vm_compute in Hp; now inversion Hp).
  subst z. split; [exact Hp | exact Ho].
Defined.

(** ** One node of the searches *)

Section Nodes.
Context {Game Player : Type} `{Board Game Player}.
Variable self : CustomPlayer Game Player.
Variable time_left : nat -> Z.

(** What a call at depth [d + 1] does after the deadline check: evaluate a
    position without moves, run the loop on the others. *)
Lemma minimax_node (game : Game) (d : nat) (mp : bool) (st : state Game) :
  minimax self time_left game (S d) mp st =
  (check_time self time_left ;;;
   (fun st1 =>
      match get_legal_moves game None with
      | [] => evaluate_here self game (after_call (EvLegalMoves game) st1)
      | m0 :: rest =>
          minimax_loop
            (fun child => minimax self time_left child d (negb mp))
            game mp (m0 :: rest) None m0
            (after_call (EvLegalMoves game)
               (after_call (EvLegalMoves game) st1))
      end)) st.
Proof.
  cbn [minimax]. unfold bind at 1. unfold bind at 3.
  destruct (check_time self time_left st) as [[[]|e] st1]; [|reflexivity].
  rewrite (bind_run _ _ _ _ _ (is_game_terminal_run game st1)).
  destruct (get_legal_moves game None) as [|m0 rest] eqn:Hm; cbn [length Nat.eqb].
  - reflexivity.
  - rewrite (bind_run _ _ _ _ _ (call_get_legal_moves_run game _)).
    now rewrite Hm.
Qed.

Lemma alphabeta_node (game : Game) (d : nat) (alpha beta : num) (mp : bool)
    (st : state Game) :
  alphabeta self time_left game (S d) alpha beta mp st =
  (check_time self time_left ;;;
   (fun st1 =>
      match get_legal_moves game None with
      | [] => evaluate_here self game (after_call (EvLegalMoves game) st1)
      | m0 :: rest =>
          alphabeta_loop
            (fun child a b => alphabeta self time_left child d a b (negb mp))
            game mp (m0 :: rest) alpha beta None m0
            (after_call (EvLegalMoves game)
               (after_call (EvLegalMoves game) st1))
      end)) st.
Proof.
  cbn [alphabeta]. unfold bind at 1. unfold bind at 3.
  destruct (check_time self time_left st) as [[[]|e] st1]; [|reflexivity].
  rewrite (bind_run _ _ _ _ _ (is_game_terminal_run game st1)).
  destruct (get_legal_moves game None) as [|m0 rest] eqn:Hm; cbn [length Nat.eqb].
  - reflexivity.
  - rewrite (bind_run _ _ _ _ _ (call_get_legal_moves_run game _)).
    now rewrite Hm.
Qed.

Lemma minimax_leaf (game : Game) (mp : bool) (st : state Game) :
  minimax self time_left game 0 mp st =
  (check_time self time_left ;;; evaluate_here self game) st.
Proof. reflexivity. Qed.

Lemma alphabeta_leaf (game : Game) (alpha beta : num) (mp : bool)
    (st : state Game) :
  alphabeta self time_left game 0 alpha beta mp st =
  (check_time self time_left ;;; evaluate_here self game) st.
Proof. reflexivity. Qed.

(** X4.  A position without legal moves is evaluated on the spot at every
    depth, by both searches: with the clock at or above the threshold the
    result is the evaluation and the sentinel move, and the calls made are
    one reading of the clock, one enumeration of the moves and one
    evaluation; no move is forecast and nothing is searched below. *)
Theorem terminal_position_is_evaluated (game : Game) (d : nat)
    (alpha beta : num) (mp : bool) (st : state Game) :
  get_legal_moves game None = [] ->
  ~ expired self time_left (ticks st) ->
  minimax self time_left game (S d) mp st =
    (Ok (Some (score self game (handle self)), (-1, -1)),
     {| ticks := S (ticks st);
        trace := trace st ++ [EvTimeLeft; EvLegalMoves game; EvScore game] |}) /\
  alphabeta self time_left game (S d) alpha beta mp st =
    (Ok (Some (score self game (handle self)), (-1, -1)),
     {| ticks := S (ticks st);
        trace := trace st ++ [EvTimeLeft; EvLegalMoves game; EvScore game] |}).
Proof.
  intros Hm Hx.
  rewrite minimax_node, alphabeta_node.
  rewrite !(bind_run _ _ _ _ _ (check_time_ok self time_left st Hx)).
  rewrite Hm, evaluate_here_run.
  unfold after_call, after_reading, NO_MOVE. simpl.
  rewrite <- !app_assoc. simpl. split; reflexivity.
Qed.

End Nodes.

Lemma terminal_position_is_evaluated_witness :
  get_legal_moves (leaf 4) None = [] /\
  ~ expired (tree_player false 2 Minimax) plenty (ticks start) /\
  minimax (tree_player false 2 Minimax) plenty (leaf 4) 3 true start =
    (Ok (Some (Fin 4), (-1, -1)),
     {| ticks := 1;
        trace := [EvTimeLeft; EvLegalMoves (leaf 4); EvScore (leaf 4)] |}) /\
  alphabeta (tree_player false 2 Minimax) plenty (leaf 4) 3 NegInf PosInf true
    start =
    (Ok (Some (Fin 4), (-1, -1)),
     {| ticks := 1;
        trace := [EvTimeLeft; EvLegalMoves (leaf 4); EvScore (leaf 4)] |}).
Proof.
  assert (Hm : get_legal_moves (leaf 4) None = []) by reflexivity.
  assert (Hx : ~ expired (tree_player false 2 Minimax) plenty (ticks start))
    by (unfold expired, plenty; simpl; lia).
  split; [exact Hm|]. split; [exact Hx|].
  exact (terminal_position_is_evaluated (tree_player false 2 Minimax) plenty
           (leaf 4) 2 NegInf PosInf true start Hm Hx).
Defined.

(** ** What the searches never do *)

Section Safety.
Context {Game Player : Type} `{Board Game Player}.
Variable self : CustomPlayer Game Player.
Variable time_left : nat -> Z.

Lemma guarded_bind {A B : Type} (m : M Game A) (k : A -> M Game B) :
  guarded m -> (forall a, guarded (k a)) -> guarded (bind m k).
Proof.
  intros Hm Hk st. unfold bind. specialize (Hm st).
  destruct (m st) as [[a|e] st1]; [apply Hk|].
  simpl in *. intros E. apply Hm. inversion E. reflexivity.
Qed.

Lemma guarded_lift {A : Type} (o : outcome A) :
  o <> Raise IndexError -> guarded (@lift Game A o).
Proof. intros Ho st. exact Ho. Qed.

Lemma guarded_check_time : guarded (check_time self time_left).
Proof.
  intros st. unfold check_time, bind, read_time_left, raise, ret.
  destruct (_ <? _); discriminate.
Qed.

Lemma minimax_change_decision_no_index (mp : bool) (p c : option num) :
  minimax_change_decision mp p c <> Raise IndexError.
Proof.
  destruct p as [p|].
  - rewrite minimax_change_decision_some. discriminate.
  - rewrite minimax_change_decision_none. discriminate.
Qed.

Lemma alphabeta_update_no_index (mp : bool) (a b : num) (p : option num) :
  alphabeta_update mp a b p <> Raise IndexError.
Proof.
  destruct p as [p|].
  - rewrite alphabeta_update_some. discriminate.
  - rewrite alphabeta_update_none. discriminate.
Qed.

Lemma guarded_minimax_loop (recur : Game -> M Game (option num * Move))
    (game : Game) (mp : bool) (moves : list Move) :
  (forall g, guarded (recur g)) ->
  forall best move, guarded (minimax_loop recur game mp moves best move).
Proof.
  intros Hrec. induction moves as [|m rest IH]; intros best move;
    cbn [minimax_loop].
  - intros st. discriminate.
  - apply guarded_bind; [intros st; discriminate | intros child].
    apply guarded_bind; [apply Hrec | intros r].
    apply guarded_bind;
      [apply guarded_lift, minimax_change_decision_no_index | intros change].
    destruct change; apply IH.
Qed.

Lemma guarded_alphabeta_loop
    (recur : Game -> num -> num -> M Game (option num * Move))
    (game : Game) (mp : bool) (moves : list Move) :
  (forall g a b, guarded (recur g a b)) ->
  forall alpha beta best move,
    guarded (alphabeta_loop recur game mp moves alpha beta best move).
Proof.
  intros Hrec. induction moves as [|m rest IH]; intros alpha beta best move;
    cbn [alphabeta_loop].
  - intros st. discriminate.
  - apply guarded_bind; [intros st; discriminate | intros child].
    apply guarded_bind; [apply Hrec | intros r].
    apply guarded_bind;
      [apply guarded_lift, minimax_change_decision_no_index | intros change].
    destruct change; [|apply IH].
    apply guarded_bind;
      [apply guarded_lift, alphabeta_update_no_index | intros ab].
    destruct (alphabeta_cut_decision mp (fst ab) (snd ab));
      [intros st; discriminate | apply IH].
Qed.

Lemma guarded_minimax (depth : nat) :
  forall game mp, guarded (minimax self time_left game depth mp).
Proof.
  induction depth as [|d IH]; intros game mp st.
  - rewrite minimax_leaf. revert st.
    apply guarded_bind; [apply guarded_check_time | intros _ st; discriminate].
  - rewrite minimax_node. revert st.
    apply guarded_bind; [apply guarded_check_time | intros _ st].
    destruct (get_legal_moves game None) as [|m0 rest]; [discriminate|].
    apply guarded_minimax_loop. intros g. apply IH.
Qed.

Lemma guarded_alphabeta (depth : nat) :
  forall game alpha beta mp,
    guarded (alphabeta self time_left game depth alpha beta mp).
Proof.
  induction depth as [|d IH]; intros game alpha beta mp st.
  - rewrite alphabeta_leaf. revert st.
    apply guarded_bind; [apply guarded_check_time | intros _ st; discriminate].
  - rewrite alphabeta_node. revert st.
    apply guarded_bind; [apply guarded_check_time | intros _ st].
    destruct (get_legal_moves game None) as [|m0 rest]; [discriminate|].
    apply guarded_alphabeta_loop. intros g a b. apply IH.
Qed.

(** X5.  The first move of the list is only taken after the list has been
    found non-empty: neither search ever raises [IndexError], and
    [get_move] never lets one out. *)
Theorem no_index_error (game : Game) (depth : nat) (alpha beta : num)
    (mp : bool) (st : state Game) (fuel : nat) (legal_moves : list Move) :
  fst (minimax self time_left game depth mp st) <> Raise IndexError /\
  fst (alphabeta self time_left game depth alpha beta mp st) <> Raise IndexError /\
  option_map fst (get_move self time_left fuel game legal_moves st) <>
    Some (Raise IndexError).
Proof.
  split; [apply guarded_minimax|]. split; [apply guarded_alphabeta|].
  assert (Hs : forall d s, fst (search self time_left game d s) <> Raise IndexError).
  { intros d s. unfold search. destruct (method self);
      [apply guarded_minimax | apply guarded_alphabeta]. }
  unfold get_move. destruct legal_moves as [|m0 rest]; [discriminate|].
  destruct (iterative self).
  - destruct (deepening self time_left fuel game 1 None m0 st)
      as [[[e [s mv]] st1]|] eqn:Ed; [|discriminate].
    destruct (deepening_inv self time_left game fuel m0 st 0 (None, m0) st
                e (s, mv) st1 (completed_none _ _ _ _ _) Ed)
      as (d' & st2 & _ & Es).
    specialize (Hs (S d') st2). rewrite Es in Hs. simpl in *.
    destruct e; try discriminate. now elim Hs.
  - specialize (Hs (search_depth self) st).
    destruct (search self time_left game (search_depth self) st)
      as [[[s mv]|e] st1]; simpl in *; [discriminate|].
    destruct e; try discriminate. now elim Hs.
Qed.

(** *** The log *)

Lemma lawful_bind {A B : Type} (m : M Game A) (k : A -> M Game B) :
  lawful m -> (forall a, lawful (k a)) -> lawful (bind m k).
Proof.
  intros Hm Hk st r st' E. unfold bind in E.
  destruct (m st) as [[a|e] st1] eqn:Em.
  - destruct (Hm _ _ _ Em) as (l1 & E1 & F1).
    destruct (Hk a _ _ _ E) as (l2 & E2 & F2).
    exists (l1 ++ l2). split.
    + now rewrite E2, E1, app_assoc.
    + apply Forall_app. now split.
  - inversion E; subst. exact (Hm _ _ _ Em).
Qed.

Lemma lawful_lift {A : Type} (o : outcome A) : lawful (@lift Game A o).
Proof.
  intros st r st' E. inversion E; subst. exists []. split.
  - now rewrite app_nil_r.
  - constructor.
Qed.

Lemma lawful_log (e : event Game) : legal_call e -> lawful (log e).
Proof.
  intros He st r st' E. inversion E; subst. exists [e]. split.
  - reflexivity.
  - repeat constructor. exact He.
Qed.

Lemma lawful_check_time : lawful (check_time self time_left).
Proof.
  intros st r st' E. exists [EvTimeLeft].
  unfold check_time, bind, read_time_left, raise, ret in E.
  destruct (_ <? _); inversion E; subst; simpl; split; auto;
    repeat constructor.
Qed.

Lemma lawful_evaluate_here (game : Game) : lawful (evaluate_here self game).
Proof.
  apply lawful_bind.
  - apply lawful_bind; [now apply lawful_log | intros; apply (lawful_lift (Ok _))].
  - intros; apply (lawful_lift (Ok _)).
Qed.

Lemma lawful_call_get_legal_moves (game : Game) :
  lawful (call_get_legal_moves game).
Proof.
  apply lawful_bind; [now apply lawful_log | intros; apply (lawful_lift (Ok _))].
Qed.

Lemma lawful_minimax_loop (recur : Game -> M Game (option num * Move))
    (game : Game) (mp : bool) (moves : list Move) :
  (forall g, lawful (recur g)) ->
  incl moves (get_legal_moves game None) ->
  forall best move, lawful (minimax_loop recur game mp moves best move).
Proof.
  intros Hrec. induction moves as [|m rest IH]; intros Hin best move;
    cbn [minimax_loop].
  - apply (lawful_lift (Ok _)).
  - assert (Hrest : incl rest (get_legal_moves game None))
      by (intros x Hx; apply Hin; now right).
    apply lawful_bind.
    { apply lawful_bind; [|intros; apply (lawful_lift (Ok _))].
      apply lawful_log. simpl. apply Hin. now left. }
    intros child. apply lawful_bind; [apply Hrec | intros r].
    apply lawful_bind; [apply lawful_lift | intros change].
    destruct change; now apply IH.
Qed.

Lemma lawful_alphabeta_loop
    (recur : Game -> num -> num -> M Game (option num * Move))
    (game : Game) (mp : bool) (moves : list Move) :
  (forall g a b, lawful (recur g a b)) ->
  incl moves (get_legal_moves game None) ->
  forall alpha beta best move,
    lawful (alphabeta_loop recur game mp moves alpha beta best move).
Proof.
  intros Hrec. induction moves as [|m rest IH];
    intros Hin alpha beta best move; cbn [alphabeta_loop].
  - apply (lawful_lift (Ok _)).
  - assert (Hrest : incl rest (get_legal_moves game None))
      by (intros x Hx; apply Hin; now right).
    apply lawful_bind.
    { apply lawful_bind; [|intros; apply (lawful_lift (Ok _))].
      apply lawful_log. simpl. apply Hin. now left. }
    intros child. apply lawful_bind; [apply Hrec | intros r].
    apply lawful_bind; [apply lawful_lift | intros change].
    destruct change; [|now apply IH].
    apply lawful_bind; [apply lawful_lift | intros ab].
    destruct (alphabeta_cut_decision mp (fst ab) (snd ab));
      [apply (lawful_lift (Ok _)) | now apply IH].
Qed.

Lemma lawful_shift {A : Type} (m : M Game A) (e : event Game) :
  legal_call e -> lawful m -> lawful (fun st => m (after_call e st)).
Proof.
  intros He Hm st r st' E. destruct (Hm _ _ _ E) as (l & El & Fl).
  exists (e :: l). split.
  - rewrite El. simpl. now rewrite <- app_assoc.
  - now constructor.
Qed.

Lemma lawful_minimax (depth : nat) :
  forall game mp, lawful (minimax self time_left game depth mp).
Proof.
  induction depth as [|d IH]; intros game mp st r st'.
  - rewrite minimax_leaf. revert st r st'.
    apply lawful_bind; [apply lawful_check_time | intros _].
    apply lawful_evaluate_here.
  - rewrite minimax_node. revert st r st'.
    apply lawful_bind; [apply lawful_check_time | intros _].
    destruct (get_legal_moves game None) as [|m0 rest] eqn:Hm.
    + apply (lawful_shift (evaluate_here self game)); [exact I|].
      apply lawful_evaluate_here.
    + apply (lawful_shift
               (fun s => minimax_loop _ game mp (m0 :: rest) None m0
                           (after_call (EvLegalMoves game) s)));
        [exact I|].
      apply (lawful_shift (minimax_loop _ game mp (m0 :: rest) None m0));
        [exact I|].
      apply lawful_minimax_loop; [intros g; apply IH|].
      rewrite Hm. apply incl_refl.
Qed.

Lemma lawful_alphabeta (depth : nat) :
  forall game alpha beta mp,
    lawful (alphabeta self time_left game depth alpha beta mp).
Proof.
  induction depth as [|d IH]; intros game alpha beta mp st r st'.
  - rewrite alphabeta_leaf. revert st r st'.
    apply lawful_bind; [apply lawful_check_time | intros _].
    apply lawful_evaluate_here.
  - rewrite alphabeta_node. revert st r st'.
    apply lawful_bind; [apply lawful_check_time | intros _].
    destruct (get_legal_moves game None) as [|m0 rest] eqn:Hm.
    + apply (lawful_shift (evaluate_here self game)); [exact I|].
      apply lawful_evaluate_here.
    + apply (lawful_shift
               (fun s => alphabeta_loop _ game mp (m0 :: rest) alpha beta
                           None m0 (after_call (EvLegalMoves game) s)));
        [exact I|].
      apply (lawful_shift
               (alphabeta_loop _ game mp (m0 :: rest) alpha beta None m0));
        [exact I|].
      apply lawful_alphabeta_loop; [intros g a b; apply IH|].
      rewrite Hm. apply incl_refl.
Qed.

(** X6.  Whatever its result, a search leaves what was in the log in place
    and adds its own calls after it; and every move it hands to
    [forecast_move] is a legal move of the position it is forecast from. *)
Theorem searches_forecast_legal_moves (game : Game) (depth : nat)
    (alpha beta : num) (mp : bool) (st : state Game) :
  (exists l,
     trace (snd (minimax self time_left game depth mp st)) = trace st ++ l /\
     forall g m, In (EvForecast g m) l -> In m (get_legal_moves g None)) /\
  (exists l,
     trace (snd (alphabeta self time_left game depth alpha beta mp st)) =
       trace st ++ l /\
     forall g m, In (EvForecast g m) l -> In m (get_legal_moves g None)).
Proof.
  split.
  - destruct (minimax self time_left game depth mp st) as [r st'] eqn:E.
    destruct (lawful_minimax depth game mp _ _ _ E) as (l & El & Fl).
    exists l. split; [exact El|]. intros g m Hin.
    rewrite Forall_forall in Fl. exact (Fl _ Hin).
  - destruct (alphabeta self time_left game depth alpha beta mp st)
      as [r st'] eqn:E.
    destruct (lawful_alphabeta depth game alpha beta mp _ _ _ E) as (l & El & Fl).
    exists l. split; [exact El|]. intros g m Hin.
    rewrite Forall_forall in Fl. exact (Fl _ Hin).
Qed.

End Safety.

(** ** What a completed search returns *)

Section Results.
Context {Game Player : Type} `{Board Game Player}.
Variable self : CustomPlayer Game Player.
Variable time_left : nat -> Z.

Lemma evaluate_here_within (n : nat) (game : Game) (st st' : state Game)
    (r : option num * Move) :
  evaluate_here self game st = (Ok r, st') -> evaluated_within self n game r.
Proof.
  rewrite evaluate_here_run. intros E. inversion E; subst.
  intros v Hv. inversion Hv; subst. exists game. split; [constructor | reflexivity].
Qed.

Lemma minimax_loop_within (recur : Game -> M Game (option num * Move))
    (game : Game) (mp : bool) (n : nat) (moves : list Move) :
  (forall g st r st', recur g st = (Ok r, st') -> evaluated_within self n g r) ->
  incl moves (get_legal_moves game None) ->
  forall best move st r st',
    (forall v, best = Some v ->
               exists g', within (S n) game g' /\ v = score self g' (handle self)) ->
    minimax_loop recur game mp moves best move st = (Ok r, st') ->
    evaluated_within self (S n) game r.
Proof.
  intros Hrec. induction moves as [|m rest IH];
    intros Hin best move st r st' Hbest E; cbn [minimax_loop] in E.
  - inversion E; subst. exact Hbest.
  - assert (Hrest : incl rest (get_legal_moves game None))
      by (intros x Hx; apply Hin; now right).
    apply bind_ok_inv in E as (child & st1 & Ec & E).
    rewrite call_forecast_move_run in Ec. inversion Ec; subst; clear Ec.
    apply bind_ok_inv in E as (rc & st2 & Er & E).
    apply bind_ok_inv in E as (change & st3 & _ & E).
    destruct change.
    + apply (IH Hrest _ _ _ _ _) in E; [exact E|].
      intros v Hv. destruct (Hrec _ _ _ _ Er v Hv) as (g' & Hw & Hs).
      exists g'. split; [|exact Hs].
      apply within_step with (m := m); [apply Hin; now left | exact Hw].
    + now apply (IH Hrest _ _ _ _ _) in E.
Qed.

Lemma alphabeta_loop_within
    (recur : Game -> num -> num -> M Game (option num * Move))
    (game : Game) (mp : bool) (n : nat) (moves : list Move) :
  (forall g a b st r st',
     recur g a b st = (Ok r, st') -> evaluated_within self n g r) ->
  incl moves (get_legal_moves game None) ->
  forall alpha beta best move st r st',
    (forall v, best = Some v ->
               exists g', within (S n) game g' /\ v = score self g' (handle self)) ->
    alphabeta_loop recur game mp moves alpha beta best move st = (Ok r, st') ->
    evaluated_within self (S n) game r.
Proof.
  intros Hrec. induction moves as [|m rest IH];
    intros Hin alpha beta best move st r st' Hbest E; cbn [alphabeta_loop] in E.
  - inversion E; subst. exact Hbest.
  - assert (Hrest : incl rest (get_legal_moves game None))
      by (intros x Hx; apply Hin; now right).
    apply bind_ok_inv in E as (child & st1 & Ec & E).
    rewrite call_forecast_move_run in Ec. inversion Ec; subst; clear Ec.
    apply bind_ok_inv in E as (rc & st2 & Er & E).
    apply bind_ok_inv in E as (change & st3 & _ & E).
    assert (Hnew : forall v, fst rc = Some v ->
              exists g', within (S n) game g' /\ v = score self g' (handle self)).
    { intros v Hv. destruct (Hrec _ _ _ _ _ _ Er v Hv) as (g' & Hw & Hs).
      exists g'. split; [|exact Hs].
      apply within_step with (m := m); [apply Hin; now left | exact Hw]. }
    destruct change.
    + apply bind_ok_inv in E as (ab & st4 & _ & E).
      destruct (alphabeta_cut_decision mp (fst ab) (snd ab)).
      * inversion E; subst. exact Hnew.
      * now apply (IH Hrest _ _ _ _ _ _ _) in E.
    + now apply (IH Hrest _ _ _ _ _ _ _) in E.
Qed.

Lemma minimax_within (depth : nat) :
  forall game mp st r st',
    minimax self time_left game depth mp st = (Ok r, st') ->
    evaluated_within self depth game r.
Proof.
  induction depth as [|d IH]; intros game mp st r st' E.
  - rewrite minimax_leaf in E. apply bind_ok_inv in E as (u & st1 & _ & E).
    eapply evaluate_here_within; exact E.
  - rewrite minimax_node in E. apply bind_ok_inv in E as (u & st1 & _ & E).
    destruct (get_legal_moves game None) as [|m0 rest] eqn:Hm.
    + eapply evaluate_here_within; exact E.
    + apply minimax_loop_within with (n := d) in E; auto.
      * intros g s r' s' Er. eapply IH; eauto.
      * rewrite Hm. apply incl_refl.
      * discriminate.
Qed.

Lemma alphabeta_within (depth : nat) :
  forall game alpha beta mp st r st',
    alphabeta self time_left game depth alpha beta mp st = (Ok r, st') ->
    evaluated_within self depth game r.
Proof.
  induction depth as [|d IH]; intros game alpha beta mp st r st' E.
  - rewrite alphabeta_leaf in E. apply bind_ok_inv in E as (u & st1 & _ & E).
    eapply evaluate_here_within; exact E.
  - rewrite alphabeta_node in E. apply bind_ok_inv in E as (u & st1 & _ & E).
    destruct (get_legal_moves game None) as [|m0 rest] eqn:Hm.
    + eapply evaluate_here_within; exact E.
    + apply alphabeta_loop_within with (n := d) in E; auto.
      * intros g a b s r' s' Er. eapply IH; eauto.
      * rewrite Hm. apply incl_refl.
      * discriminate.
Qed.

Lemma search_sentinel (game : Game) (depth : nat) (st st' : state Game)
    (s : option num) (m : Move) :
  depth = 0%nat \/ get_legal_moves game None = [] ->
  search self time_left game depth st = (Ok (s, m), st') ->
  s = Some (score self game (handle self)) /\ m = NO_MOVE.
Proof.
  intros Hd E. unfold search in E.
  destruct depth as [|d].
  - assert (E' : (check_time self time_left ;;; evaluate_here self game) st =
                 (Ok (s, m), st')) by (destruct (method self); exact E).
    apply bind_ok_inv in E' as (u & st1 & _ & E').
    rewrite evaluate_here_run in E'. now inversion E'.
  - destruct Hd as [Hd|Hm]; [discriminate|].
    assert (E' : (check_time self time_left ;;;
                  (fun st1 => evaluate_here self game
                                (after_call (EvLegalMoves game) st1))) st =
                 (Ok (s, m), st')).
    { destruct (method self);
        [rewrite minimax_node in E | rewrite alphabeta_node in E];
        now rewrite Hm in E. }
    apply bind_ok_inv in E' as (u & st1 & _ & E').
    rewrite evaluate_here_run in E'. now inversion E'.
Qed.

(** X7.  What a search that completes returns, for either method: at depth
    0 or on a position without moves, the evaluation of the position and
    the sentinel move; otherwise a legal move of the position.  In all
    cases the score, unless it is [None], is the evaluation of some
    position at most [depth] legal moves away. *)
Theorem search_result_shape (game : Game) (depth : nat) (st st' : state Game)
    (s : option num) (m : Move) :
  search self time_left game depth st = (Ok (s, m), st') ->
  (depth = 0%nat \/ get_legal_moves game None = [] ->
   s = Some (score self game (handle self)) /\ m = (-1, -1)) /\
  (depth <> 0%nat -> get_legal_moves game None <> [] ->
   In m (get_legal_moves game None)) /\
  (forall v, s = Some v ->
             exists g', within depth game g' /\ v = score self g' (handle self)).
Proof.
  intros E. split; [|split].
  - intros Hd. now apply search_sentinel with (st := st) (st' := st') (depth := depth).
  - intros Hd Hm. destruct depth as [|d]; [now elim Hd|].
    now apply search_move_legal in E.
  - unfold search in E. destruct (method self).
    + exact (minimax_within depth game true st (s, m) st' E).
    + exact (alphabeta_within depth game NegInf PosInf true st (s, m) st' E).
Qed.

(** X8.  When the position has exactly one legal move, [get_move] returns
    that move whenever it returns a move, whatever the evaluation function,
    the method and the clock (the fixed depth being at least 1). *)
Theorem get_move_single_legal_move (fuel : nat) (game : Game) (m0 m : Move)
    (st st' : state Game) :
  get_legal_moves game None = [m0] ->
  (iterative self = false -> (1 <= search_depth self)%nat) ->
  get_move self time_left fuel game [m0] st = Some (Ok m, st') ->
  m = m0.
Proof.
  intros Hm Hd E.
  apply get_move_in in E; [| now rewrite Hm | exact Hd].
  destruct E as [E|[]]. now symmetry.
Qed.

(** The depths the driver has completed were all run in time. *)
Lemma completed_in_time (game : Game) (m0 : Move) (st0 : state Game) (d : nat)
    (kept : option num * Move) (st : state Game) :
  completed self time_left game m0 st0 d kept st ->
  (ticks st0 <= ticks st)%nat /\
  forall i, (ticks st0 <= i < ticks st)%nat -> ~ expired self time_left i.
Proof.
  induction 1 as [|d kept r st st' Hc [IHle IHin] Hs].
  - split; [lia|]. intros i Hi. lia.
  - destruct (clocked_search self time_left game (S d) _ _ _ Hs)
      as (Hle & Hin & _).
    split; [lia|]. intros i Hi Hx.
    destruct (Nat.lt_ge_cases i (ticks st)) as [Hlt|Hge].
    + apply (IHin i); [lia | exact Hx].
    + destruct (Hin i (conj Hge (proj2 Hi)) Hx) as [Hbad _]. discriminate.
Qed.

(** X9.  In iterative mode, when [get_move] returns a move for a non-empty
    list, the last reading of the clock it made is the first one below the
    threshold: every reading before it was at or above the threshold, and
    none is made after it. *)
Theorem get_move_stops_at_first_low_reading (fuel : nat) (game : Game)
    (m0 : Move) (rest : list Move) (st st' : state Game) (m : Move) :
  iterative self = true ->
  get_move self time_left fuel game (m0 :: rest) st = Some (Ok m, st') ->
  (ticks st < ticks st')%nat /\
  expired self time_left (pred (ticks st')) /\
  forall i, (ticks st <= i < pred (ticks st'))%nat -> ~ expired self time_left i.
Proof.
  intros Hit E. unfold get_move in E. rewrite Hit in E.
  destruct (deepening self time_left fuel game 1 None m0 st)
    as [[[e [s mv]] st1]|] eqn:Ed; [|discriminate].
  inversion E as [[Ea Est]]. subst st1. apply after_try_ok in Ea as [-> ->].
  destruct (deepening_inv self time_left game fuel m0 st 0 (None, m0) st
              Timeout (s, mv) st' (completed_none _ _ _ _ _) Ed)
    as (d' & st2 & Hc & Es).
  destruct (completed_in_time _ _ _ _ _ _ Hc) as [Hle Hin].
  destruct (clocked_search self time_left game (S d') _ _ _ Es)
    as (Hle2 & Hin2 & Hto).
  destruct (Hto eq_refl) as [Hlt Hx].
  split; [lia|]. split; [exact Hx|].
  intros i Hi Hxi.
  destruct (Nat.lt_ge_cases i (ticks st2)) as [Hlt'|Hge].
  - apply (Hin i); [lia | exact Hxi].
  - destruct (Hin2 i) as [_ Hs]; [lia | exact Hxi | lia].
Qed.

End Results.

(** ** The searches against the textbook definition *)

Lemma extremum_cons (mp : bool) (v0 v : Z) (vs : list Z) :
  extremum mp v0 (v :: vs) =
  extremum mp ((if mp then Z.max else Z.min) v0 v) vs.
Proof. reflexivity. Qed.

Lemma extremum_in (mp : bool) (vs : list Z) :
  forall v0, extremum mp v0 vs = v0 \/ In (extremum mp v0 vs) vs.
Proof.
  induction vs as [|v vs IH]; intros v0.
  - now left.
  - rewrite extremum_cons.
    destruct (IH ((if mp then Z.max else Z.min) v0 v)) as [E|E].
    + rewrite E. destruct mp.
      * destruct (Z.max_spec v0 v) as [[_ ->]|[_ ->]]; [right; now left | now left].
      * destruct (Z.min_spec v0 v) as [[_ ->]|[_ ->]]; [now left | right; now left].
    + right. now right.
Qed.

Lemma extremum_bound (mp : bool) (vs : list Z) :
  forall v0, ~ beats mp v0 (extremum mp v0 vs) /\
             forall v, In v vs -> ~ beats mp v (extremum mp v0 vs).
Proof.
  induction vs as [|v vs IH]; intros v0.
  - split; [destruct mp; simpl; lia | intros v []].
  - rewrite extremum_cons.
    destruct (IH ((if mp then Z.max else Z.min) v0 v)) as [Hb Hin].
    split.
    + destruct mp; simpl in *; lia.
    + intros x [<-|Hx]; [|now apply Hin].
      destruct mp; simpl in *; lia.
Qed.

Section Textbook.
Context {Game Player : Type} `{Board Game Player}.
Variable self : CustomPlayer Game Player.
Variable time_left : nat -> Z.
Hypothesis in_time : forall k, ~ expired self time_left k.
Hypothesis plain_scores : forall g, plain (score self g (handle self)).

Lemma plain_score (g : Game) :
  score self g (handle self) = Fin (finite_part (score self g (handle self))) /\
  finite_part (score self g (handle self)) <> 0.
Proof.
  pose proof (plain_scores g) as Hp.
  destruct (score self g (handle self)); simpl in *; try contradiction.
  now split.
Qed.

Lemma reference_value_nonzero (d : nat) :
  forall g mp, reference_value self d g mp <> 0.
Proof.
  induction d as [|d IH]; intros g mp; cbn [reference_value].
  - apply plain_score.
  - destruct (get_legal_moves g None) as [|m0 rest]; [apply plain_score|].
    destruct (extremum_in mp
                (map (fun m => reference_value self d (forecast_move g m) (negb mp))
                   rest)
                (reference_value self d (forecast_move g m0) (negb mp)))
      as [-> | Hin].
    + apply IH.
    + apply in_map_iff in Hin as (x & <- & _). apply IH.
Qed.

Lemma leaf_run (game : Game) (st : state Game) :
  (check_time self time_left ;;; evaluate_here self game) st =
  (Ok (Some (Fin (finite_part (score self game (handle self)))), NO_MOVE),
   after_call (EvScore game) (after_reading st)).
Proof.
  rewrite (bind_run _ _ _ _ _ (check_time_ok self time_left st (in_time _))).
  rewrite evaluate_here_run. now rewrite <- (proj1 (plain_score game)).
Qed.

(** The rule on plain scores: a strict comparison. *)
Lemma change_decision_plain (mp : bool) (x c : Z) :
  c <> 0 ->
  minimax_change_decision mp (Some (Fin x)) (Some (Fin c)) =
  Ok (if mp then c <? x else x <? c).
Proof.
  intros Hc. rewrite minimax_change_decision_strict; [reflexivity|].
  intros E. inversion E. contradiction.
Qed.

Lemma change_decision_start (mp : bool) (x : Z) :
  minimax_change_decision mp (Some (Fin x)) None = Ok true.
Proof. rewrite minimax_change_decision_first. now destruct mp. Qed.

(** The loop of [minimax] once it holds a running best. *)
Lemma minimax_loop_reference (recur : Game -> M Game (option num * Move))
    (game : Game) (mp : bool) (vc : Move -> Z) (rest : list Move) :
  (forall m st, exists mv st',
      recur (forecast_move game m) st = (Ok (Some (Fin (vc m)), mv), st')) ->
  (forall m, vc m <> 0) ->
  forall c mc st,
    c <> 0 ->
    exists m' st',
      minimax_loop recur game mp rest (Some (Fin c)) mc st =
        (Ok (Some (Fin (extremum mp c (map vc rest))), m'), st') /\
      ((m' = mc /\ extremum mp c (map vc rest) = c /\
        forall x, In x rest -> ~ beats mp (vc x) c) \/
       (exists pre post,
          rest = pre ++ m' :: post /\
          vc m' = extremum mp c (map vc rest) /\
          beats mp (vc m') c /\
          (forall x, In x pre -> beats mp (vc m') (vc x)) /\
          (forall x, In x post -> ~ beats mp (vc x) (vc m')))).
Proof.
  intros Hrec Hnz. induction rest as [|m rest IH]; intros c mc st Hc;
    cbn [minimax_loop].
  - exists mc, st. split; [reflexivity|]. left. repeat split. intros x [].
  - rewrite (bind_run _ _ _ _ _ (call_forecast_move_run game m st)).
    destruct (Hrec m (after_call (EvForecast game m) st)) as (mv & st1 & Er).
    rewrite (bind_run _ _ _ _ _ Er). cbn [fst].
    unfold bind at 1, lift. rewrite (change_decision_plain mp (vc m) c Hc).
    cbn [map]. rewrite extremum_cons.
    destruct (if mp then c <? vc m else vc m <? c) eqn:Hsel.
    + assert (Hb : beats mp (vc m) c).
      { destruct mp; simpl; apply Z.ltb_lt in Hsel; lia. }
      assert (Hext : (if mp then Z.max else Z.min) c (vc m) = vc m).
      { destruct mp; simpl in *; lia. }
      rewrite Hext.
      destruct (IH (vc m) m st1 (Hnz m)) as (m' & st' & E & Hm').
      exists m', st'. split; [exact E|]. right.
      destruct Hm' as [(-> & Hv & Hno) | (pre & post & -> & Hv & Hb' & Hpre & Hpost)].
      * exists [], rest. repeat split; auto. intros x [].
      * exists (m :: pre), post. repeat split; auto.
        -- destruct mp; simpl in *; lia.
        -- intros x [<-|Hx]; [exact Hb' | now apply Hpre].
    + assert (Hb : ~ beats mp (vc m) c).
      { destruct mp; simpl; apply Z.ltb_ge in Hsel; lia. }
      assert (Hext : (if mp then Z.max else Z.min) c (vc m) = c).
      { destruct mp; simpl in *; lia. }
      rewrite Hext.
      destruct (IH c mc st1 Hc) as (m' & st' & E & Hm').
      exists m', st'. split; [exact E|].
      destruct Hm' as [(-> & Hv & Hno) | (pre & post & -> & Hv & Hb' & Hpre & Hpost)].
      * left. repeat split; auto. intros x [<-|Hx]; [exact Hb | now apply Hno].
      * right. exists (m :: pre), post. repeat split; auto.
        intros x [<-|Hx]; [|now apply Hpre].
        destruct mp; simpl in *; lia.
Qed.

(** The whole loop, started as the searches start it. *)
Lemma minimax_loop_start (recur : Game -> M Game (option num * Move))
    (game : Game) (mp : bool) (vc : Move -> Z) (m0 : Move) (rest : list Move)
    (st : state Game) :
  (forall m st, exists mv st',
      recur (forecast_move game m) st = (Ok (Some (Fin (vc m)), mv), st')) ->
  (forall m, vc m <> 0) ->
  exists m' st',
    minimax_loop recur game mp (m0 :: rest) None m0 st =
      (Ok (Some (Fin (extremum mp (vc m0) (map vc rest))), m'), st') /\
    first_best mp vc (m0 :: rest) m'.
Proof.
  intros Hrec Hnz. cbn [minimax_loop].
  rewrite (bind_run _ _ _ _ _ (call_forecast_move_run game m0 st)).
  destruct (Hrec m0 (after_call (EvForecast game m0) st)) as (mv & st1 & Er).
  rewrite (bind_run _ _ _ _ _ Er). cbn [fst].
  unfold bind at 1, lift. rewrite change_decision_start.
  destruct (minimax_loop_reference recur game mp vc rest Hrec Hnz
              (vc m0) m0 st1 (Hnz m0)) as (m' & st' & E & Hm').
  exists m', st'. split; [exact E|].
  destruct Hm' as [(-> & Hv & Hno) | (pre & post & -> & Hv & Hb' & Hpre & Hpost)].
  - exists [], rest. repeat split; auto. intros x [].
  - exists (m0 :: pre), post. repeat split; auto.
    intros x [<-|Hx]; [exact Hb' | now apply Hpre].
Qed.

Lemma minimax_reference (d : nat) :
  forall game mp st,
    exists m st',
      minimax self time_left game d mp st =
        (Ok (Some (Fin (reference_value self d game mp)), m), st') /\
      reference_move self d game mp m.
Proof.
  induction d as [|d IH]; intros game mp st.
  - rewrite minimax_leaf, leaf_run. eexists _, _. split; reflexivity.
  - rewrite minimax_node.
    rewrite (bind_run _ _ _ _ _ (check_time_ok self time_left st (in_time _))).
    cbn [reference_value reference_move].
    destruct (get_legal_moves game None) as [|m0 rest].
    + rewrite evaluate_here_run, (proj1 (plain_score game)).
      eexists _, _. split; reflexivity.
    + apply (minimax_loop_start _ game mp
               (fun x => reference_value self d (forecast_move game x) (negb mp))).
      * intros m s. destruct (IH (forecast_move game m) (negb mp) s)
          as (mv & s' & E & _). now exists mv, s'.
      * intros m. apply reference_value_nonzero.
Qed.

End Textbook.

(** ** Pruning *)

Lemma below_then_inside (a b : num) (z : Z) :
  num_ltb a b = true -> num_ltb a (Fin z) = false -> num_ltb (Fin z) b = true.
Proof.
  destruct a, b; simpl; intros H1 H2; try discriminate; try reflexivity.
  apply Z.ltb_lt in H1. apply Z.ltb_ge in H2. apply Z.ltb_lt. lia.
Qed.

Lemma above_then_inside (a b : num) (z : Z) :
  num_ltb a b = true -> num_ltb (Fin z) b = false -> num_ltb a (Fin z) = true.
Proof.
  destruct a, b; simpl; intros H1 H2; try discriminate; try reflexivity.
  apply Z.ltb_lt in H1. apply Z.ltb_ge in H2. apply Z.ltb_lt. lia.
Qed.

Lemma below_mono (a : num) (z z' : Z) :
  num_ltb a (Fin z) = false -> z' <= z -> num_ltb a (Fin z') = false.
Proof.
  destruct a; simpl; intros H1 H2; try discriminate; try reflexivity.
  apply Z.ltb_ge in H1. apply Z.ltb_ge. lia.
Qed.

Lemma below_above (a : num) (z z' : Z) :
  num_ltb a (Fin z) = false -> num_ltb a (Fin z') = true -> z < z'.
Proof.
  destruct a; simpl; intros H1 H2; try discriminate.
  apply Z.ltb_ge in H1. apply Z.ltb_lt in H2. lia.
Qed.

Lemma above_mono (b : num) (z z' : Z) :
  num_ltb (Fin z) b = false -> z <= z' -> num_ltb (Fin z') b = false.
Proof.
  destruct b; simpl; intros H1 H2; try discriminate; try reflexivity.
  apply Z.ltb_ge in H1. apply Z.ltb_ge. lia.
Qed.

Lemma above_below (b : num) (z z' : Z) :
  num_ltb (Fin z) b = true -> num_ltb (Fin z') b = false -> z < z'.
Proof.
  destruct b; simpl; intros H1 H2; try discriminate.
  apply Z.ltb_lt in H1. apply Z.ltb_ge in H2. lia.
Qed.

Section Pruning.
Context {Game Player : Type} `{Board Game Player}.
Variable self : CustomPlayer Game Player.
Variable time_left : nat -> Z.
Hypothesis in_time : forall k, ~ expired self time_left k.
Hypothesis plain_scores : forall g, plain (score self g (handle self)).

Lemma change_decision_running (mp : bool) (x : Z) (oc : option Z) :
  (forall c, oc = Some c -> c <> 0) ->
  minimax_change_decision mp (Some (Fin x)) (option_map Fin oc) =
  Ok (match oc with
      | None => true
      | Some c => if mp then c <? x else x <? c
      end).
Proof.
  intros Hc. destruct oc as [c|]; simpl.
  - apply change_decision_plain; auto.
  - apply change_decision_start.
Qed.

(** The loop of [alphabeta] on a maximizing ply. *)
Lemma alphabeta_loop_max
    (recur : Game -> num -> num -> M Game (option num * Move))
    (game : Game) (beta : num) (vc : Move -> Z) (rest : list Move) :
  (forall m a st, num_ltb a beta = true ->
     exists x mv st',
       recur (forecast_move game m) a beta st = (Ok (Some (Fin x), mv), st') /\
       window_sound a beta (vc m) x) ->
  forall a oc mc st,
    num_ltb a beta = true ->
    (forall c, oc = Some c -> c <> 0 /\ num_ltb a (Fin c) = false) ->
    exists ox m' st',
      alphabeta_loop recur game true rest a beta (option_map Fin oc) mc st =
        (Ok (option_map Fin ox, m'), st') /\
      (ox = None -> oc = None /\ rest = []) /\
      (forall x, ox = Some x ->
         x <> 0 /\
         (forall c, oc = Some c -> c <= x /\ (x = c -> m' = mc)) /\
         (num_ltb a (Fin x) = false -> forall y, In y rest -> vc y <= x) /\
         (num_ltb (Fin x) beta = false -> exists y, In y rest /\ x <= vc y) /\
         (num_ltb a (Fin x) = true -> num_ltb (Fin x) beta = true ->
          exists pre post,
            rest = pre ++ m' :: post /\ vc m' = x /\
            (forall y, In y pre -> vc y < x) /\
            (forall y, In y post -> vc y <= x))).
Proof.
  intros Hrec. induction rest as [|m rest IH]; intros a oc mc st Hab Hoc;
    cbn [alphabeta_loop].
  - exists oc, mc, st. split; [reflexivity|]. split; [intros ->; auto|].
    intros x ->. destruct (Hoc x eq_refl) as [Hx0 Hxa].
    split; [exact Hx0|]. split.
    { intros c Hc. inversion Hc; subst. split; [lia | auto]. }
    split; [intros _ y []|]. split.
    { intros Hxb. rewrite (below_then_inside a beta x Hab Hxa) in Hxb.
      discriminate. }
    intros Hax. rewrite Hxa in Hax. discriminate.
  - rewrite (bind_run _ _ _ _ _ (call_forecast_move_run game m st)).
    destruct (Hrec m a (after_call (EvForecast game m) st) Hab)
      as (xc & mv & st1 & Er & Hx0 & Hlow & Hhigh & Hexact).
    rewrite (bind_run _ _ _ _ _ Er). cbn [fst].
    unfold bind at 1, lift.
    rewrite (change_decision_running true xc oc)
      by (intros c Hc; apply (Hoc c Hc)).
    destruct (match oc with Some c => c <? xc | None => true end) eqn:Hsel.
    + (* the child replaces the running best *)
      assert (Hcur : forall c, oc = Some c -> c < xc).
      { intros c ->. now apply Z.ltb_lt in Hsel. }
      unfold bind at 1. rewrite alphabeta_update_some. cbn [fst snd].
      unfold alphabeta_cut_decision, num_geb, num_max. cbn [andb negb].
      destruct (num_ltb a (Fin xc)) eqn:Haxc.
      * destruct (num_ltb (Fin xc) beta) eqn:Hxcb; cbn [negb].
        -- (* inside the window: exact, the window closes up to it *)
           assert (Hv : vc m = xc) by (now apply Hexact).
           destruct (IH (Fin xc) (Some xc) m st1 Hxcb) as
             (ox & m' & st' & E & Hnone & Hsome).
           { intros c Hc. inversion Hc; subst. split; [exact Hx0|].
             simpl. apply Z.ltb_irrefl. }
           exists ox, m', st'. split; [exact E|]. split.
           { intros Hox. destruct (Hnone Hox) as [Hbad _]. discriminate. }
           intros x Hox.
           destruct (Hsome x Hox) as (Hxnz & Hmono & Hall & Hcut & Hin).
           destruct (Hmono xc eq_refl) as [Hle Hsame].
           split; [exact Hxnz|]. split.
           { intros c Hc. specialize (Hcur c Hc). split; [lia|]. intros ->. lia. }
           split.
           { intros Hxa. pose proof (below_above a x xc Hxa Haxc). lia. }
           split.
           { intros Hxb. destruct (Hcut Hxb) as (y & Hy & Hxy).
             exists y. split; [now right | exact Hxy]. }
           intros Hax Hxb.
           destruct (Z.eq_dec x xc) as [->|Hne].
           ++ exists [], rest. rewrite (Hsame eq_refl).
              split; [reflexivity|]. split; [exact Hv|].
              split; [intros y []|].
              apply Hall. simpl. apply Z.ltb_irrefl.
           ++ destruct Hin as (pre & post & -> & Hvm & Hpre & Hpost).
              { simpl. apply Z.ltb_lt. lia. }
              { exact Hxb. }
              exists (m :: pre), post. split; [reflexivity|].
              split; [exact Hvm|]. split; [|exact Hpost].
              intros y [<-|Hy]; [lia | now apply Hpre].
        -- (* at or above beta: cut *)
           exists (Some xc), m, st1. split; [reflexivity|].
           split; [discriminate|].
           intros x Hox. inversion Hox; subst x. split; [exact Hx0|]. split.
           { intros c Hc. specialize (Hcur c Hc). split; [lia|]. intros ->. lia. }
           split.
           { intros Hxa. rewrite Hxa in Haxc. discriminate. }
           split.
           { intros _. exists m. split; [now left | now apply Hhigh]. }
           intros _ Hxb. rewrite Hxb in Hxcb. discriminate.
      * (* at or below alpha: the window stays *)
        rewrite Hab. cbn [negb].
        assert (Hv : vc m <= xc) by (now apply Hlow).
        destruct (IH a (Some xc) m st1 Hab) as
          (ox & m' & st' & E & Hnone & Hsome).
        { intros c Hc. inversion Hc; subst. now split. }
        exists ox, m', st'. split; [exact E|]. split.
        { intros Hox. destruct (Hnone Hox) as [Hbad _]. discriminate. }
        intros x Hox.
        destruct (Hsome x Hox) as (Hxnz & Hmono & Hall & Hcut & Hin).
        destruct (Hmono xc eq_refl) as [Hle Hsame].
        split; [exact Hxnz|]. split.
        { intros c Hc. specialize (Hcur c Hc). split; [lia|]. intros ->. lia. }
        split.
        { intros Hxa y [<-|Hy]; [lia | now apply Hall]. }
        split.
        { intros Hxb. destruct (Hcut Hxb) as (y & Hy & Hxy).
          exists y. split; [now right | exact Hxy]. }
        intros Hax Hxb.
        destruct (Hin Hax Hxb) as (pre & post & -> & Hvm & Hpre & Hpost).
        exists (m :: pre), post. split; [reflexivity|].
        split; [exact Hvm|]. split; [|exact Hpost].
        intros y [<-|Hy]; [|now apply Hpre].
        pose proof (below_above a xc x Haxc Hax). lia.
    + (* the running best stays *)
      destruct oc as [c|]; [|discriminate].
      apply Z.ltb_ge in Hsel.
      destruct (Hoc c eq_refl) as [Hc0 Hca].
      assert (Haxc : num_ltb a (Fin xc) = false)
        by (now apply below_mono with (z := c)).
      assert (Hv : vc m <= xc) by (now apply Hlow).
      destruct (IH a (Some c) mc st1 Hab Hoc) as
        (ox & m' & st' & E & Hnone & Hsome).
      exists ox, m', st'. split; [exact E|]. split.
      { intros Hox. destruct (Hnone Hox) as [Hbad _]. discriminate. }
      intros x Hox.
      destruct (Hsome x Hox) as (Hxnz & Hmono & Hall & Hcut & Hin).
      destruct (Hmono c eq_refl) as [Hle Hsame].
      split; [exact Hxnz|]. split; [exact Hmono|]. split.
      { intros Hxa y [<-|Hy]; [lia | now apply Hall]. }
      split.
      { intros Hxb. destruct (Hcut Hxb) as (y & Hy & Hxy).
        exists y. split; [now right | exact Hxy]. }
      intros Hax Hxb.
      destruct (Hin Hax Hxb) as (pre & post & -> & Hvm & Hpre & Hpost).
      exists (m :: pre), post. split; [reflexivity|].
      split; [exact Hvm|]. split; [|exact Hpost].
      intros y [<-|Hy]; [|now apply Hpre].
      pose proof (below_above a xc x Haxc Hax). lia.
Qed.

(** The loop of [alphabeta] on a minimizing ply. *)
Lemma alphabeta_loop_min
    (recur : Game -> num -> num -> M Game (option num * Move))
    (game : Game) (alpha : num) (vc : Move -> Z) (rest : list Move) :
  (forall m b st, num_ltb alpha b = true ->
     exists x mv st',
       recur (forecast_move game m) alpha b st = (Ok (Some (Fin x), mv), st') /\
       window_sound alpha b (vc m) x) ->
  forall b oc mc st,
    num_ltb alpha b = true ->
    (forall c, oc = Some c -> c <> 0 /\ num_ltb (Fin c) b = false) ->
    exists ox m' st',
      alphabeta_loop recur game false rest alpha b (option_map Fin oc) mc st =
        (Ok (option_map Fin ox, m'), st') /\
      (ox = None -> oc = None /\ rest = []) /\
      (forall x, ox = Some x ->
         x <> 0 /\
         (forall c, oc = Some c -> x <= c /\ (x = c -> m' = mc)) /\
         (num_ltb (Fin x) b = false -> forall y, In y rest -> x <= vc y) /\
         (num_ltb alpha (Fin x) = false -> exists y, In y rest /\ vc y <= x) /\
         (num_ltb alpha (Fin x) = true -> num_ltb (Fin x) b = true ->
          exists pre post,
            rest = pre ++ m' :: post /\ vc m' = x /\
            (forall y, In y pre -> x < vc y) /\
            (forall y, In y post -> x <= vc y))).
Proof.
  intros Hrec. induction rest as [|m rest IH]; intros b oc mc st Hab Hoc;
    cbn [alphabeta_loop].
  - exists oc, mc, st. split; [reflexivity|]. split; [intros ->; auto|].
    intros x ->. destruct (Hoc x eq_refl) as [Hx0 Hxb].
    split; [exact Hx0|]. split.
    { intros c Hc. inversion Hc; subst. split; [lia | auto]. }
    split; [intros _ y []|]. split.
    { intros Hxa. rewrite (above_then_inside alpha b x Hab Hxb) in Hxa.
      discriminate. }
    intros _ Hxb'. rewrite Hxb in Hxb'. discriminate.
  - rewrite (bind_run _ _ _ _ _ (call_forecast_move_run game m st)).
    destruct (Hrec m b (after_call (EvForecast game m) st) Hab)
      as (xc & mv & st1 & Er & Hx0 & Hlow & Hhigh & Hexact).
    rewrite (bind_run _ _ _ _ _ Er). cbn [fst].
    unfold bind at 1, lift.
    rewrite (change_decision_running false xc oc)
      by (intros c Hc; apply (Hoc c Hc)).
    destruct (match oc with Some c => xc <? c | None => true end) eqn:Hsel.
    + (* the child replaces the running best *)
      assert (Hcur : forall c, oc = Some c -> xc < c).
      { intros c ->. now apply Z.ltb_lt in Hsel. }
      unfold bind at 1. rewrite alphabeta_update_some. cbn [fst snd].
      unfold alphabeta_cut_decision, num_geb, num_min. cbn [andb negb].
      destruct (num_ltb (Fin xc) b) eqn:Hxcb.
      * destruct (num_ltb alpha (Fin xc)) eqn:Haxc; cbn [negb].
        -- (* inside the window: exact, the window closes down to it *)
           assert (Hv : vc m = xc) by (now apply Hexact).
           destruct (IH (Fin xc) (Some xc) m st1 Haxc) as
             (ox & m' & st' & E & Hnone & Hsome).
           { intros c Hc. inversion Hc; subst. split; [exact Hx0|].
             simpl. apply Z.ltb_irrefl. }
           exists ox, m', st'. split; [exact E|]. split.
           { intros Hox. destruct (Hnone Hox) as [Hbad _]. discriminate. }
           intros x Hox.
           destruct (Hsome x Hox) as (Hxnz & Hmono & Hall & Hcut & Hin).
           destruct (Hmono xc eq_refl) as [Hle Hsame].
           split; [exact Hxnz|]. split.
           { intros c Hc. specialize (Hcur c Hc). split; [lia|]. intros ->. lia. }
           split.
           { intros Hxb. pose proof (above_below b xc x Hxcb Hxb). lia. }
           split.
           { intros Hxa. destruct (Hcut Hxa) as (y & Hy & Hxy).
             exists y. split; [now right | exact Hxy]. }
           intros Hax Hxb.
           destruct (Z.eq_dec x xc) as [->|Hne].
           ++ exists [], rest. rewrite (Hsame eq_refl).
              split; [reflexivity|]. split; [exact Hv|].
              split; [intros y []|].
              apply Hall. simpl. apply Z.ltb_irrefl.
           ++ destruct Hin as (pre & post & -> & Hvm & Hpre & Hpost).
              { exact Hax. }
              { simpl. apply Z.ltb_lt. lia. }
              exists (m :: pre), post. split; [reflexivity|].
              split; [exact Hvm|]. split; [|exact Hpost].
              intros y [<-|Hy]; [lia | now apply Hpre].
        -- (* at or below alpha: cut *)
           exists (Some xc), m, st1. split; [reflexivity|].
           split; [discriminate|].
           intros x Hox. inversion Hox; subst x. split; [exact Hx0|]. split.
           { intros c Hc. specialize (Hcur c Hc). split; [lia|]. intros ->. lia. }
           split.
           { intros Hxb. rewrite Hxb in Hxcb. discriminate. }
           split.
           { intros _. exists m. split; [now left | now apply Hlow]. }
           intros Hax _. rewrite Hax in Haxc. discriminate.
      * (* at or above beta: the window stays *)
        rewrite Hab. cbn [negb].
        assert (Hv : xc <= vc m) by (now apply Hhigh).
        destruct (IH b (Some xc) m st1 Hab) as
          (ox & m' & st' & E & Hnone & Hsome).
        { intros c Hc. inversion Hc; subst. now split. }
        exists ox, m', st'. split; [exact E|]. split.
        { intros Hox. destruct (Hnone Hox) as [Hbad _]. discriminate. }
        intros x Hox.
        destruct (Hsome x Hox) as (Hxnz & Hmono & Hall & Hcut & Hin).
        destruct (Hmono xc eq_refl) as [Hle Hsame].
        split; [exact Hxnz|]. split.
        { intros c Hc. specialize (Hcur c Hc). split; [lia|]. intros ->. lia. }
        split.
        { intros Hxb y [<-|Hy]; [lia | now apply Hall]. }
        split.
        { intros Hxa. destruct (Hcut Hxa) as (y & Hy & Hxy).
          exists y. split; [now right | exact Hxy]. }
        intros Hax Hxb.
        destruct (Hin Hax Hxb) as (pre & post & -> & Hvm & Hpre & Hpost).
        exists (m :: pre), post. split; [reflexivity|].
        split; [exact Hvm|]. split; [|exact Hpost].
        intros y [<-|Hy]; [|now apply Hpre].
        pose proof (above_below b x xc Hxb Hxcb). lia.
    + (* the running best stays *)
      destruct oc as [c|]; [|discriminate].
      apply Z.ltb_ge in Hsel.
      destruct (Hoc c eq_refl) as [Hc0 Hcb].
      assert (Hxcb : num_ltb (Fin xc) b = false)
        by (now apply above_mono with (z := c)).
      assert (Hv : xc <= vc m) by (now apply Hhigh).
      destruct (IH b (Some c) mc st1 Hab Hoc) as
        (ox & m' & st' & E & Hnone & Hsome).
      exists ox, m', st'. split; [exact E|]. split.
      { intros Hox. destruct (Hnone Hox) as [Hbad _]. discriminate. }
      intros x Hox.
      destruct (Hsome x Hox) as (Hxnz & Hmono & Hall & Hcut & Hin).
      destruct (Hmono c eq_refl) as [Hle Hsame].
      split; [exact Hxnz|]. split; [exact Hmono|]. split.
      { intros Hxb y [<-|Hy]; [lia | now apply Hall]. }
      split.
      { intros Hxa. destruct (Hcut Hxa) as (y & Hy & Hxy).
        exists y. split; [now right | exact Hxy]. }
      intros Hax Hxb.
      destruct (Hin Hax Hxb) as (pre & post & -> & Hvm & Hpre & Hpost).
      exists (m :: pre), post. split; [reflexivity|].
      split; [exact Hvm|]. split; [|exact Hpost].
      intros y [<-|Hy]; [|now apply Hpre].
      pose proof (above_below b x xc Hxb Hxcb). lia.
Qed.

Lemma extremum_moves (mp : bool) (vc : Move -> Z) (m0 : Move)
    (rest : list Move) :
  (forall y, In y (m0 :: rest) ->
             ~ beats mp (vc y) (extremum mp (vc m0) (map vc rest))) /\
  exists y, In y (m0 :: rest) /\ vc y = extremum mp (vc m0) (map vc rest).
Proof.
  destruct (extremum_bound mp (map vc rest) (vc m0)) as [Hb Hin]. split.
  - intros y [<-|Hy]; [exact Hb|]. apply Hin. now apply in_map.
  - destruct (extremum_in mp (map vc rest) (vc m0)) as [E|E].
    + exists m0. split; [now left | now symmetry].
    + apply in_map_iff in E as (y & Hy & Hyin). exists y. split; [now right | exact Hy].
Qed.

(** [alphabeta] with an open window, against the textbook value. *)
Lemma alphabeta_sound (d : nat) :
  forall game alpha beta mp st,
    num_ltb alpha beta = true ->
    exists x m st',
      alphabeta self time_left game d alpha beta mp st =
        (Ok (Some (Fin x), m), st') /\
      window_sound alpha beta (reference_value self d game mp) x /\
      (num_ltb alpha (Fin x) = true -> num_ltb (Fin x) beta = true ->
       reference_move self d game mp m).
Proof.
  induction d as [|d IH]; intros game alpha beta mp st Hab.
  - rewrite alphabeta_leaf, (leaf_run self time_left in_time plain_scores).
    eexists _, _, _. split; [reflexivity|]. split; [|reflexivity].
    split; [apply (plain_score self plain_scores)|].
    cbn [reference_value]. repeat split; intros; lia.
  - rewrite alphabeta_node.
    rewrite (bind_run _ _ _ _ _ (check_time_ok self time_left st (in_time _))).
    cbn [reference_value reference_move].
    destruct (get_legal_moves game None) as [|m0 rest].
    + rewrite evaluate_here_run, (proj1 (plain_score self plain_scores game)).
      eexists _, _, _. split; [reflexivity|]. split; [|reflexivity].
      split; [apply (plain_score self plain_scores)|].
      repeat split; intros; cbn [finite_part]; lia.
    + set (vc := fun y => reference_value self d (forecast_move game y) (negb mp)).
      destruct (extremum_moves mp vc m0 rest) as (Hub & y0 & Hy0 & Hv0).
      change (extremum mp
                (reference_value self d (forecast_move game m0) (negb mp))
                (map (fun m => reference_value self d (forecast_move game m)
                                 (negb mp)) rest))
        with (extremum mp (vc m0) (map vc rest)).
      change (fun x => reference_value self d (forecast_move game x) (negb mp))
        with vc.
      set (v := extremum mp (vc m0) (map vc rest)) in *.
      destruct mp.
      * destruct (alphabeta_loop_max
                    (fun child a b =>
                       alphabeta self time_left child d a b (negb true))
                    game beta vc (m0 :: rest)) with
          (a := alpha) (oc := @None Z) (mc := m0)
          (st := after_call (EvLegalMoves game)
                   (after_call (EvLegalMoves game) (after_reading st)))
          as (ox & m' & st' & E & Hnone & Hsome).
        { intros m a s Ha.
          destruct (IH (forecast_move game m) a beta (negb true) s Ha)
            as (x & mv & s' & Ex & Hw & _).
          now exists x, mv, s'. }
        { exact Hab. }
        { discriminate. }
        destruct ox as [x|]; [|destruct (Hnone eq_refl); discriminate].
        destruct (Hsome x eq_refl) as (Hx0 & _ & Hall & Hcut & Hin).
        assert (Hws : window_sound alpha beta v x /\
                      (num_ltb alpha (Fin x) = true ->
                       num_ltb (Fin x) beta = true ->
                       first_best true vc (m0 :: rest) m'));
          [|exists x, m', st'; split; [exact E | exact Hws]].
        split.
        -- split; [exact Hx0|]. split; [|split].
           ++ intros Hxa. rewrite <- Hv0. now apply Hall.
           ++ intros Hxb. destruct (Hcut Hxb) as (y & Hy & Hxy).
              specialize (Hub y Hy). simpl in Hub. lia.
           ++ intros Hax Hxb.
              destruct (Hin Hax Hxb) as (pre & post & Hl & Hvm & Hpre & Hpost).
              assert (Hm' : In m' (m0 :: rest))
                by (rewrite Hl; apply in_or_app; right; now left).
              pose proof (Hub m' Hm') as Hle. simpl in Hle.
              rewrite Hl in Hy0. apply in_app_or in Hy0 as [Hy|[<-|Hy]].
              ** specialize (Hpre y0 Hy). lia.
              ** lia.
              ** specialize (Hpost y0 Hy). lia.
        -- intros Hax Hxb.
           destruct (Hin Hax Hxb) as (pre & post & Hl & Hvm & Hpre & Hpost).
           exists pre, post. split; [exact Hl|]. split.
           ++ intros y Hy. simpl. rewrite Hvm. now apply Hpre.
           ++ intros y Hy. simpl. rewrite Hvm. specialize (Hpost y Hy). lia.
      * destruct (alphabeta_loop_min
                    (fun child a b =>
                       alphabeta self time_left child d a b (negb false))
                    game alpha vc (m0 :: rest)) with
          (b := beta) (oc := @None Z) (mc := m0)
          (st := after_call (EvLegalMoves game)
                   (after_call (EvLegalMoves game) (after_reading st)))
          as (ox & m' & st' & E & Hnone & Hsome).
        { intros m b s Hb.
          destruct (IH (forecast_move game m) alpha b (negb false) s Hb)
            as (x & mv & s' & Ex & Hw & _).
          now exists x, mv, s'. }
        { exact Hab. }
        { discriminate. }
        destruct ox as [x|]; [|destruct (Hnone eq_refl); discriminate].
        destruct (Hsome x eq_refl) as (Hx0 & _ & Hall & Hcut & Hin).
        assert (Hws : window_sound alpha beta v x /\
                      (num_ltb alpha (Fin x) = true ->
                       num_ltb (Fin x) beta = true ->
                       first_best false vc (m0 :: rest) m'));
          [|exists x, m', st'; split; [exact E | exact Hws]].
        split.
        -- split; [exact Hx0|]. split; [|split].
           ++ intros Hxa. destruct (Hcut Hxa) as (y & Hy & Hxy).
              specialize (Hub y Hy). simpl in Hub. lia.
           ++ intros Hxb. rewrite <- Hv0. now apply Hall.
           ++ intros Hax Hxb.
              destruct (Hin Hax Hxb) as (pre & post & Hl & Hvm & Hpre & Hpost).
              assert (Hm' : In m' (m0 :: rest))
                by (rewrite Hl; apply in_or_app; right; now left).
              pose proof (Hub m' Hm') as Hle. simpl in Hle.
              rewrite Hl in Hy0. apply in_app_or in Hy0 as [Hy|[<-|Hy]].
              ** specialize (Hpre y0 Hy). lia.
              ** lia.
              ** specialize (Hpost y0 Hy). lia.
        -- intros Hax Hxb.
           destruct (Hin Hax Hxb) as (pre & post & Hl & Hvm & Hpre & Hpost).
           exists pre, post. split; [exact Hl|]. split.
           ++ intros y Hy. simpl. rewrite Hvm. now apply Hpre.
           ++ intros y Hy. simpl. rewrite Hvm. specialize (Hpost y Hy). lia.
Qed.

End Pruning.

Lemma first_best_unique (mp : bool) (vc : Move -> Z) (moves : list Move)
    (m1 m2 : Move) :
  first_best mp vc moves m1 -> first_best mp vc moves m2 -> m1 = m2.
Proof.
  intros (pre1 & post1 & E1 & Hpre1 & Hpost1) (pre2 & post2 & E2 & Hpre2 & Hpost2).
  subst moves. revert pre2 E2 Hpre2.
  induction pre1 as [|p pre1 IH]; intros pre2 E2 Hpre2.
  - destruct pre2 as [|q pre2]; simpl in E2; inversion E2; subst; [reflexivity|].
    exfalso. apply (Hpost1 m2).
    + apply in_or_app. right. now left.
    + apply Hpre2. now left.
  - destruct pre2 as [|q pre2]; simpl in E2; inversion E2; subst.
    + exfalso. apply (Hpost2 m1).
      * apply in_or_app. right. now left.
      * apply Hpre1. now left.
    + apply (IH (fun x Hx => Hpre1 x (or_intror Hx)) pre2); [assumption|].
      intros x Hx. apply Hpre2. now right.
Qed.

Section Parity.
Context {Game Player : Type} `{Board Game Player}.
Variable self : CustomPlayer Game Player.
Variable time_left : nat -> Z.

Lemma reference_move_unique (d : nat) (g : Game) (mp : bool) (m1 m2 : Move) :
  reference_move self d g mp m1 -> reference_move self d g mp m2 -> m1 = m2.
Proof.
  destruct d as [|d]; cbn [reference_move].
  - intros -> ->. reflexivity.
  - destruct (get_legal_moves g None) as [|m0 rest].
    + intros -> ->. reflexivity.
    + apply first_best_unique.
Qed.

(** X10.  With a clock that stays at or above the threshold and an
    evaluation function whose values are finite and never [0.0], [minimax]
    returns the textbook depth-limited minimax value of the position, and
    with it the first best move: the sentinel at depth 0 or without moves,
    and otherwise the first legal move whose successor has that value. *)
Theorem minimax_computes_reference (game : Game) (d : nat) (mp : bool)
    (st : state Game) :
  (forall k, ~ expired self time_left k) ->
  (forall g, plain (score self g (handle self))) ->
  exists m,
    fst (minimax self time_left game d mp st) =
      Ok (Some (Fin (reference_value self d game mp)), m) /\
    reference_move self d game mp m.
Proof.
  intros Ht Hp.
  destruct (minimax_reference self time_left Ht Hp d game mp st)
    as (m & st' & E & Hm).
  exists m. rewrite E. now split.
Qed.

(** X11.  Under the same conditions and with any open window
    [alpha < beta], the score [x] returned by [alphabeta] bounds the
    textbook value [v] of the position: [v <= x] when [x <= alpha],
    [x <= v] when [x >= beta], and [x = v] with the first best move when
    [x] is strictly inside the window. *)
Theorem alphabeta_window_guarantee (game : Game) (d : nat) (alpha beta : num)
    (mp : bool) (st : state Game) :
  (forall k, ~ expired self time_left k) ->
  (forall g, plain (score self g (handle self))) ->
  num_ltb alpha beta = true ->
  exists x m,
    fst (alphabeta self time_left game d alpha beta mp st) =
      Ok (Some (Fin x), m) /\
    (num_ltb alpha (Fin x) = false -> reference_value self d game mp <= x) /\
    (num_ltb (Fin x) beta = false -> x <= reference_value self d game mp) /\
    (num_ltb alpha (Fin x) = true -> num_ltb (Fin x) beta = true ->
     x = reference_value self d game mp /\ reference_move self d game mp m).
Proof.
  intros Ht Hp Hab.
  destruct (alphabeta_sound self time_left Ht Hp d game alpha beta mp st Hab)
    as (x & m & st' & E & (_ & Hlow & Hhigh & Hexact) & Hmove).
  exists x, m. rewrite E. split; [reflexivity|].
  split; [exact Hlow|]. split; [exact Hhigh|].
  intros Hax Hxb. split; [symmetry; now apply Hexact | now apply Hmove].
Qed.

(** X12.  Under the same conditions, [alphabeta] called with the default
    bounds returns the same score and the same move as [minimax], at every
    depth and for either side to move. *)
Theorem alphabeta_agrees_with_minimax_on_plain_scores (game : Game) (d : nat)
    (mp : bool) (st1 st2 : state Game) :
  (forall k, ~ expired self time_left k) ->
  (forall g, plain (score self g (handle self))) ->
  fst (alphabeta self time_left game d NegInf PosInf mp st1) =
  fst (minimax self time_left game d mp st2).
Proof.
  intros Ht Hp.
  destruct (minimax_reference self time_left Ht Hp d game mp st2)
    as (m & st' & E & Hm).
  destruct (alphabeta_sound self time_left Ht Hp d game NegInf PosInf mp st1
              eq_refl)
    as (x & m' & st'' & E' & (_ & _ & _ & Hexact) & Hmove).
  rewrite E, E'. simpl.
  rewrite <- (Hexact eq_refl eq_refl).
  now rewrite (reference_move_unique d game mp m' m (Hmove eq_refl eq_refl) Hm).
Qed.

End Parity.


(** X13.  When the running best is a float other than [0.0], the selection
    rule is the strict comparison with it: strictly greater on a maximizing
    ply, strictly less on a minimizing ply. *)
Theorem selection_rule_on_nonzero_best (maxplayer : bool) (p c : num) :
  c <> Fin 0 ->
  minimax_change_decision maxplayer (Some p) (Some c) =
  Ok (if maxplayer then num_ltb c p else num_ltb p c).
Proof. apply minimax_change_decision_strict. Qed.

(** ** Further instances *)

Lemma selection_rule_on_nonzero_best_witness :
  Fin 3 <> Fin 0 /\
  minimax_change_decision true (Some (Fin 3)) (Some (Fin 3)) = Ok false /\
  minimax_change_decision false (Some (Fin 2)) (Some (Fin 3)) = Ok true.
Proof.
  assert (Hc : Fin 3 <> Fin 0) by discriminate.
  split; [exact Hc|]. split.
  - exact (selection_rule_on_nonzero_best true (Fin 3) (Fin 3) Hc).
  - exact (selection_rule_on_nonzero_best false (Fin 2) (Fin 3) Hc).
Defined.

Lemma searches_agree_at_depth_1_witness :
  (forall k, ~ expired (tree_player false 1 Minimax) plenty k) /\
  fst (minimax (tree_player false 1 Minimax) plenty tie_tree 1 true start) =
  fst (alphabeta (tree_player false 1 Minimax) plenty tie_tree 1
         NegInf PosInf true start).
Proof.
  assert (Ht : forall k, ~ expired (tree_player false 1 Minimax) plenty k)
    by (intros k; unfold expired, plenty; simpl; lia).
  split; [exact Ht|].
  exact (searches_agree_at_depth_1 (tree_player false 1 Minimax) plenty Ht
           tie_tree start).
Defined.

Lemma search_result_shape_witness :
  (search (tree_player false 2 Minimax) plenty parity_tree 0 start =
     (Ok (Some (Fin 0), (-1, -1)),
      snd (search (tree_player false 2 Minimax) plenty parity_tree 0 start))) /\
  (fst (search (tree_player false 2 Minimax) plenty parity_tree 2 start) =
     Ok (Some (Fin 5), (0, 1)) /\
   In ((0, 1) : Move) (get_legal_moves parity_tree None) /\
   exists g', within 2 parity_tree g' /\
              Fin 5 = score (tree_player false 2 Minimax) g'
                        (handle (tree_player false 2 Minimax))).
Proof.
  split.
  - assert (E : exists s m st',
               search (tree_player false 2 Minimax) plenty parity_tree 0 start =
               (Ok (s, m), st'))
      by (eexists _, _, _; vm_compute; reflexivity).
    destruct E as (s & m & st' & E).
    destruct (proj1 (search_result_shape (tree_player false 2 Minimax) plenty
                       parity_tree 0 start st' s m E) (or_introl eq_refl))
      as [-> ->].
    rewrite E. reflexivity.
  - assert (E : search (tree_player false 2 Minimax) plenty parity_tree 2 start =
               (Ok (Some (Fin 5), (0, 1)),
                snd (search (tree_player false 2 Minimax) plenty parity_tree
                       2 start)))
      by (vm_compute; reflexivity).
    destruct (search_result_shape (tree_player false 2 Minimax) plenty
                parity_tree 2 start _ _ _ E) as (_ & Hin & Hw).
    split; [now rewrite E|]. split.
    + apply Hin; discriminate.
    + now apply Hw.
Defined.

Lemma get_move_single_legal_move_witness :
  get_legal_moves above_doomed None = [(0, 0)] /\
  (1 <= search_depth (tree_player false 1 Minimax))%nat /\
  exists m st',
    get_move (tree_player false 1 Minimax) plenty 0 above_doomed [(0, 0)] start =
      Some (Ok m, st') /\
    m = (0, 0).
Proof.
  assert (Hm : get_legal_moves above_doomed None = [(0, 0)]) by reflexivity.
  assert (E : exists m st',
             get_move (tree_player false 1 Minimax) plenty 0 above_doomed
               [(0, 0)] start = Some (Ok m, st'))
    by (eexists _, _; vm_compute; reflexivity).
  destruct E as (m & st' & E).
  split; [exact Hm|]. split; [simpl; lia|].
  exists m, st'. split; [exact E|].
  apply (get_move_single_legal_move (tree_player false 1 Minimax) plenty 0
           above_doomed (0, 0) m start st' Hm); [|exact E].
  intros _. simpl. lia.
Defined.

Lemma get_move_stops_at_first_low_reading_witness :
  iterative (tree_player true 2 Minimax) = true /\
  exists m st',
    get_move (tree_player true 2 Minimax) (countdown 15) 5 parity_tree
      [(0, 0); (0, 1); (0, 2)] start = Some (Ok m, st') /\
    (ticks start < ticks st')%nat /\
    expired (tree_player true 2 Minimax) (countdown 15) (pred (ticks st')) /\
    forall i, (ticks start <= i < pred (ticks st'))%nat ->
              ~ expired (tree_player true 2 Minimax) (countdown 15) i.
Proof.
  split; [reflexivity|].
  assert (E : exists m st',
             get_move (tree_player true 2 Minimax) (countdown 15) 5 parity_tree
               [(0, 0); (0, 1); (0, 2)] start = Some (Ok m, st'))
    by (eexists _, _; vm_compute; reflexivity).
  destruct E as (m & st' & E). exists m, st'. split; [exact E|].
  exact (get_move_stops_at_first_low_reading (tree_player true 2 Minimax)
           (countdown 15) 5 parity_tree (0, 0) [(0, 1); (0, 2)] start st' m
           eq_refl E).
Defined.

Lemma plenty_in_time (meth : Method) :
  forall k, ~ expired (plain_player false 2 meth) plenty k.
Proof. intros k. unfold expired, plenty. simpl. lia. Qed.

Lemma plain_player_plain (meth : Method) (g : tree) :
  plain (score (plain_player false 2 meth) g (handle (plain_player false 2 meth))).
Proof.
  simpl. unfold plain_value.
  destruct (tree_value g) as [|z|]; simpl; try lia.
  destruct z; simpl; lia.
Qed.

Lemma minimax_computes_reference_witness :
  (forall k, ~ expired (plain_player false 2 Minimax) plenty k) /\
  (forall g, plain (score (plain_player false 2 Minimax) g
                      (handle (plain_player false 2 Minimax)))) /\
  reference_value (plain_player false 2 Minimax) 2 sample_tree true = 4 /\
  exists m,
    fst (minimax (plain_player false 2 Minimax) plenty sample_tree 2 true start) =
      Ok (Some (Fin (reference_value (plain_player false 2 Minimax) 2
                       sample_tree true)), m) /\
    reference_move (plain_player false 2 Minimax) 2 sample_tree true m.
Proof.
  split; [apply plenty_in_time|]. split; [apply plain_player_plain|].
  split; [reflexivity|].
  exact (minimax_computes_reference (plain_player false 2 Minimax) plenty
           sample_tree 2 true start (plenty_in_time Minimax)
           (plain_player_plain Minimax)).
Defined.

Lemma alphabeta_window_guarantee_witness :
  num_ltb (Fin 3) (Fin 5) = true /\
  exists x m,
    fst (alphabeta (plain_player false 2 Alphabeta) plenty sample_tree 2
           (Fin 3) (Fin 5) true start) = Ok (Some (Fin x), m) /\
    (num_ltb (Fin 3) (Fin x) = false ->
     reference_value (plain_player false 2 Alphabeta) 2 sample_tree true <= x) /\
    (num_ltb (Fin x) (Fin 5) = false ->
     x <= reference_value (plain_player false 2 Alphabeta) 2 sample_tree true) /\
    (num_ltb (Fin 3) (Fin x) = true -> num_ltb (Fin x) (Fin 5) = true ->
     x = reference_value (plain_player false 2 Alphabeta) 2 sample_tree true /\
     reference_move (plain_player false 2 Alphabeta) 2 sample_tree true m).
Proof.
  split; [reflexivity|].
  exact (alphabeta_window_guarantee (plain_player false 2 Alphabeta) plenty
           sample_tree 2 (Fin 3) (Fin 5) true start (plenty_in_time Alphabeta)
           (plain_player_plain Alphabeta) eq_refl).
Defined.

Lemma alphabeta_agrees_with_minimax_on_plain_scores_witness :
  fst (alphabeta (plain_player false 2 Minimax) plenty sample_tree 2
         NegInf PosInf true start) =
  fst (minimax (plain_player false 2 Minimax) plenty sample_tree 2 true start) /\
  fst (minimax (plain_player false 2 Minimax) plenty sample_tree 2 true start) =
    Ok (Some (Fin 4), (0, 2)).
Proof.
  split; [|vm_compute; reflexivity].
  exact (alphabeta_agrees_with_minimax_on_plain_scores
           (plain_player false 2 Minimax) plenty sample_tree 2 true start start
           (plenty_in_time Minimax) (plain_player_plain Minimax)).
Defined.

(** ** The facade on plain scores *)

(** X15.  In fixed-depth mode, with a clock that stays at or above the
    threshold and an evaluation function whose values are finite and never
    [0.0], [get_move] on a non-empty list returns, for either method, the
    textbook first best move of the position at the configured depth. *)
Theorem get_move_fixed_depth_is_textbook {Game Player : Type}
    `{Board Game Player} (self : CustomPlayer Game Player)
    (time_left : nat -> Z) (fuel : nat) (game : Game) (m0 : Move)
    (rest : list Move) (st : state Game) :
  iterative self = false ->
  (forall k, ~ expired self time_left k) ->
  (forall g, plain (score self g (handle self))) ->
  exists m st',
    get_move self time_left fuel game (m0 :: rest) st = Some (Ok m, st') /\
    reference_move self (search_depth self) game true m.
Proof.
  intros Hit Ht Hp. unfold get_move, search. rewrite Hit.
  destruct (method self).
  - destruct (minimax_reference self time_left Ht Hp (search_depth self)
                game true st) as (m & st' & E & Hm).
    rewrite E. now exists m, st'.
  - destruct (alphabeta_sound self time_left Ht Hp (search_depth self)
                game NegInf PosInf true st eq_refl)
      as (x & m & st' & E & _ & Hm).
    rewrite E. exists m, st'. split; [reflexivity|]. now apply Hm.
Qed.

Lemma get_move_fixed_depth_is_textbook_witness :
  iterative (plain_player false 2 Alphabeta) = false /\
  exists m st',
    get_move (plain_player false 2 Alphabeta) plenty 0 sample_tree
      [(0, 0); (0, 1); (0, 2)] start = Some (Ok m, st') /\
    reference_move (plain_player false 2 Alphabeta)
      (search_depth (plain_player false 2 Alphabeta)) sample_tree true m.
Proof.
  split; [reflexivity|].
  exact (get_move_fixed_depth_is_textbook (plain_player false 2 Alphabeta)
           plenty 0 sample_tree (0, 0) [(0, 1); (0, 2)] start eq_refl
           (plenty_in_time Alphabeta) (plain_player_plain Alphabeta)).
Defined.

(** ** Searches that complete, whatever the clock *)

Section Completed.
Context {Game Player : Type} `{Board Game Player}.
Variable self : CustomPlayer Game Player.
Variable time_left : nat -> Z.

Lemma patient_in_time : forall k, ~ expired self (patient self time_left) k.
Proof. intros k. unfold expired, patient. lia. Qed.

Lemma reproduces_refl {A : Type} (m : M Game A) : reproduces m m.
Proof. intros st r st' E _. exact E. Qed.

Lemma reproduces_bind {A B : Type} (m m' : M Game A) (k k' : A -> M Game B) :
  reproduces m m' -> (forall a, reproduces (k a) (k' a)) ->
  reproduces (bind m k) (bind m' k').
Proof.
  intros Hm Hk st r st' E Hr. unfold bind in *.
  destruct (m st) as [[a|e] st1] eqn:Em.
  - rewrite (Hm _ _ _ Em) by discriminate. now apply Hk.
  - inversion E; subst.
    assert (He : @Raise A e <> Raise Timeout)
      by (intros X; apply Hr; inversion X; reflexivity).
    now rewrite (Hm _ _ _ Em He).
Qed.

Lemma reproduces_check_time :
  reproduces (check_time self time_left)
             (check_time self (patient self time_left)).
Proof.
  intros st r st' E Hr.
  unfold check_time, bind, read_time_left, raise, ret, patient in *.
  destruct (Z.ltb_spec (time_left (ticks st)) (TIMER_THRESHOLD self)) as [Hlt|Hge].
  - inversion E; subst. now elim Hr.
  - rewrite Z.max_l by lia.
    destruct (Z.ltb_spec (time_left (ticks st)) (TIMER_THRESHOLD self));
      [lia | exact E].
Qed.

Lemma reproduces_minimax_loop (recur recur' : Game -> M Game (option num * Move))
    (game : Game) (mp : bool) (moves : list Move) :
  (forall g, reproduces (recur g) (recur' g)) ->
  forall best move,
    reproduces (minimax_loop recur game mp moves best move)
               (minimax_loop recur' game mp moves best move).
Proof.
  intros Hrec. induction moves as [|m rest IH]; intros best move;
    cbn [minimax_loop].
  - apply reproduces_refl.
  - apply reproduces_bind; [apply reproduces_refl | intros child].
    apply reproduces_bind; [apply Hrec | intros r].
    apply reproduces_bind; [apply reproduces_refl | intros change].
    destruct change; apply IH.
Qed.

Lemma reproduces_alphabeta_loop
    (recur recur' : Game -> num -> num -> M Game (option num * Move))
    (game : Game) (mp : bool) (moves : list Move) :
  (forall g a b, reproduces (recur g a b) (recur' g a b)) ->
  forall alpha beta best move,
    reproduces (alphabeta_loop recur game mp moves alpha beta best move)
               (alphabeta_loop recur' game mp moves alpha beta best move).
Proof.
  intros Hrec. induction moves as [|m rest IH]; intros alpha beta best move;
    cbn [alphabeta_loop].
  - apply reproduces_refl.
  - apply reproduces_bind; [apply reproduces_refl | intros child].
    apply reproduces_bind; [apply Hrec | intros r].
    apply reproduces_bind; [apply reproduces_refl | intros change].
    destruct change; [|apply IH].
    apply reproduces_bind; [apply reproduces_refl | intros ab].
    destruct (alphabeta_cut_decision mp (fst ab) (snd ab));
      [apply reproduces_refl | apply IH].
Qed.

Lemma reproduces_minimax (depth : nat) :
  forall game mp,
    reproduces (minimax self time_left game depth mp)
               (minimax self (patient self time_left) game depth mp).
Proof.
  induction depth as [|d IH]; intros game mp; cbn [minimax].
  - apply reproduces_bind; [apply reproduces_check_time | intros _].
    apply reproduces_refl.
  - apply reproduces_bind; [apply reproduces_check_time | intros _].
    apply reproduces_bind; [apply reproduces_refl | intros terminal].
    destruct terminal; [apply reproduces_refl|].
    apply reproduces_bind; [apply reproduces_refl | intros moves].
    destruct moves as [|m0 rest]; [apply reproduces_refl|].
    apply reproduces_minimax_loop. intros g. apply IH.
Qed.

Lemma reproduces_alphabeta (depth : nat) :
  forall game alpha beta mp,
    reproduces (alphabeta self time_left game depth alpha beta mp)
               (alphabeta self (patient self time_left) game depth alpha beta mp).
Proof.
  induction depth as [|d IH]; intros game alpha beta mp; cbn [alphabeta].
  - apply reproduces_bind; [apply reproduces_check_time | intros _].
    apply reproduces_refl.
  - apply reproduces_bind; [apply reproduces_check_time | intros _].
    apply reproduces_bind; [apply reproduces_refl | intros terminal].
    destruct terminal; [apply reproduces_refl|].
    apply reproduces_bind; [apply reproduces_refl | intros moves].
    destruct moves as [|m0 rest]; [apply reproduces_refl|].
    apply reproduces_alphabeta_loop. intros g a b. apply IH.
Qed.

Hypothesis plain_scores : forall g, plain (score self g (handle self)).

Lemma reproduces_search (game : Game) (d : nat) :
  reproduces (search self time_left game d)
             (search self (patient self time_left) game d).
Proof.
  unfold search. destruct (method self);
    [apply reproduces_minimax | apply reproduces_alphabeta].
Qed.

Lemma patient_search_reference (game : Game) (d : nat) (st : state Game) :
  exists m st',
    search self (patient self time_left) game d st =
      (Ok (Some (Fin (reference_value self d game true)), m), st') /\
    reference_move self d game true m.
Proof.
  unfold search. destruct (method self).
  - apply (minimax_reference self (patient self time_left)
             patient_in_time plain_scores).
  - destruct (alphabeta_sound self (patient self time_left)
                patient_in_time plain_scores d game NegInf PosInf true st
                eq_refl)
      as (x & m & st' & E & (_ & _ & _ & Hexact) & Hmove).
    exists m, st'. rewrite <- (Hexact eq_refl eq_refl) in E.
    split; [exact E | now apply Hmove].
Qed.

(** On plain scores a search either runs out of time or returns the
    textbook pair. *)
Lemma search_outcome (game : Game) (d : nat) (st st' : state Game)
    (r : outcome (option num * Move)) :
  search self time_left game d st = (r, st') ->
  r = Raise Timeout \/
  exists m, r = Ok (Some (Fin (reference_value self d game true)), m) /\
            reference_move self d game true m.
Proof.
  intros E.
  assert (Hdec : r = Raise Timeout \/ r <> Raise Timeout).
  { destruct r as [x|e]; [right; discriminate|].
    destruct e; [now left | right; discriminate | right; discriminate]. }
  destruct Hdec as [Hr|Hr]; [now left | right].
  pose proof (reproduces_search game d st r st' E Hr) as E2.
  destruct (patient_search_reference game d st) as (m & st'' & E' & Hm).
  rewrite E' in E2. inversion E2; subst. now exists m.
Qed.

(** X16.  Whatever the clock does, with an evaluation function whose values
    are finite and never [0.0] a search (either method) has only two
    outcomes: it raises [Timeout], or it returns the textbook depth-limited
    minimax value of the position with the first best move.  In particular
    it raises no [TypeError]. *)
Theorem search_is_textbook_or_timeout (game : Game) (d : nat)
    (st : state Game) :
  fst (search self time_left game d st) = Raise Timeout \/
  exists m,
    fst (search self time_left game d st) =
      Ok (Some (Fin (reference_value self d game true)), m) /\
    reference_move self d game true m.
Proof.
  destruct (search self time_left game d st) as [r st'] eqn:E.
  exact (search_outcome game d st st' r E).
Qed.

Lemma completed_reference (game : Game) (m0 : Move) (st0 : state Game)
    (d : nat) (kept : option num * Move) (st : state Game) :
  completed self time_left game m0 st0 d kept st ->
  (d = 0%nat /\ kept = (None, m0)) \/
  (d <> 0%nat /\
   fst kept = Some (Fin (reference_value self d game true)) /\
   reference_move self d game true (snd kept)).
Proof.
  intros Hc. destruct Hc as [|d kept r st st' Hc Hs].
  - now left.
  - right. split; [discriminate|].
    destruct (search_outcome game (S d) st st' (Ok r) Hs)
      as [Hbad | (m & Hr & Hm)]; [discriminate|].
    inversion Hr; subst. now split.
Qed.

(** X17.  With an evaluation function whose values are finite and never
    [0.0], whatever the clock and the method, [get_move] on a non-empty list
    raises nothing.  In iterative mode, when it returns, the searches at
    depths 1 to [d] have completed one after the other and the search at
    depth [d + 1] has raised [Timeout], for some [d]; the move returned is
    the one held after depth [d]: the first legal move when [d] is 0 (no
    search completed), the textbook first best move of the position at
    depth [d] otherwise.  In fixed-depth mode the move returned is the first
    legal move when the search raised [Timeout], and otherwise the textbook
    first best move at depth [search_depth]. *)
Theorem get_move_on_plain_scores (fuel : nat) (game : Game) (m0 : Move)
    (rest : list Move) (st st' : state Game) (r : outcome Move) :
  get_move self time_left fuel game (m0 :: rest) st = Some (r, st') ->
  (iterative self = true ->
   exists d kept st1,
     completed self time_left game m0 st d kept st1 /\
     search self time_left game (S d) st1 = (Raise Timeout, st') /\
     r = Ok (snd kept) /\
     (d = 0%nat -> snd kept = m0) /\
     (d <> 0%nat ->
      fst kept = Some (Fin (reference_value self d game true)) /\
      reference_move self d game true (snd kept))) /\
  (iterative self = false ->
   (search self time_left game (search_depth self) st = (Raise Timeout, st') /\
    r = Ok m0) \/
   (exists m,
      search self time_left game (search_depth self) st =
        (Ok (Some (Fin (reference_value self (search_depth self) game true)), m),
         st') /\
      r = Ok m /\
      reference_move self (search_depth self) game true m)).
Proof.
  intros E. unfold get_move in E. destruct (iterative self) eqn:Hit.
  - split; [intros _ | discriminate].
    destruct (deepening self time_left fuel game 1 None m0 st)
      as [[[e [s mv]] st1]|] eqn:Ed; [|discriminate].
    inversion E; subst; clear E.
    destruct (deepening_inv self time_left game fuel m0 st 0 (None, m0) st
                e (s, mv) st' (completed_none _ _ _ _ _) Ed)
      as (d' & st2 & Hc & Es).
    destruct (search_outcome game (S d') st2 st' (Raise e) Es)
      as [He | (m & Hbad & _)]; [|discriminate].
    inversion He; subst e. exists d', (s, mv), st2.
    split; [exact Hc|]. split; [exact Es|]. split; [reflexivity|].
    destruct (completed_reference _ _ _ _ _ _ Hc)
      as [[Hd Hk] | (Hd & Hv & Hm)].
    + split; [intros _; now inversion Hk | intros Hne; now elim Hne].
    + split; [intros Hz; now elim Hd | intros _; now split].
  - split; [discriminate | intros _].
    destruct (search self time_left game (search_depth self) st)
      as [[[s mv]|e] st1] eqn:Es; inversion E; subst; clear E.
    + destruct (search_outcome game _ st st' _ Es)
        as [Hbad | (m & Hr & Hm)]; [discriminate|].
      inversion Hr; subst. right. exists m. now repeat split.
    + destruct (search_outcome game _ st st' _ Es)
        as [He | (m & Hbad & _)]; [|discriminate].
      inversion He; subst e. left. now split.
Qed.

End Completed.

Lemma plain_player_scores (it : bool) (d : nat) (meth : Method) (g : tree) :
  plain (score (plain_player it d meth) g (handle (plain_player it d meth))).
Proof.
  simpl. unfold plain_value.
  destruct (tree_value g) as [|z|]; simpl; try lia.
  destruct z; simpl; lia.
Qed.

(** With a clock starting at 11 ms the search at depth 2 runs out of time;
    with plenty of time it returns the value 4 and the third move. *)
Lemma search_is_textbook_or_timeout_witness :
  (forall g, plain (score (plain_player false 2 Alphabeta) g
                      (handle (plain_player false 2 Alphabeta)))) /\
  fst (search (plain_player false 2 Alphabeta) (countdown 11) sample_tree 2
         start) = Raise Timeout /\
  fst (search (plain_player false 2 Alphabeta) plenty sample_tree 2 start) =
    Ok (Some (Fin 4), (0, 2)) /\
  (fst (search (plain_player false 2 Alphabeta) plenty sample_tree 2 start) =
     Raise Timeout \/
   exists m,
     fst (search (plain_player false 2 Alphabeta) plenty sample_tree 2 start) =
       Ok (Some (Fin (reference_value (plain_player false 2 Alphabeta) 2
                        sample_tree true)), m) /\
     reference_move (plain_player false 2 Alphabeta) 2 sample_tree true m).
Proof.
  split; [apply plain_player_scores|].
  split; [vm_compute; reflexivity|]. split; [vm_compute; reflexivity|].
  exact (search_is_textbook_or_timeout (plain_player false 2 Alphabeta) plenty
           (plain_player_scores false 2 Alphabeta) sample_tree 2 start).
Defined.

(** The iterative agent on [deepening_tree] with a clock starting at 15 ms:
    depth 1 completes with the second move, depth 2 is interrupted, and the
    move returned is the second one, neither the fallback nor the best move
    at depth 2.  The fixed-depth agent with plenty of time returns the best
    move at depth 2, the third one. *)
Lemma get_move_on_plain_scores_witness :
  (forall g, plain (score (plain_player true 2 Minimax) g
                      (handle (plain_player true 2 Minimax)))) /\
  fst (search (plain_player true 2 Minimax) (countdown 15) deepening_tree 1
         start) = Ok (Some (Fin 5), (0, 1)) /\
  fst (search (plain_player true 2 Minimax) (countdown 15) deepening_tree 2
         (snd (search (plain_player true 2 Minimax) (countdown 15)
                 deepening_tree 1 start))) = Raise Timeout /\
  (exists st',
     get_move (plain_player true 2 Minimax) (countdown 15) 5 deepening_tree
       [(0, 0); (0, 1); (0, 2)] start = Some (Ok (0, 1), st') /\
     exists d kept st1,
       completed (plain_player true 2 Minimax) (countdown 15) deepening_tree
         (0, 0) start d kept st1 /\
       search (plain_player true 2 Minimax) (countdown 15) deepening_tree
         (S d) st1 = (Raise Timeout, st') /\
       Ok (0, 1) = Ok (snd kept) /\
       (d = 0%nat -> snd kept = (0, 0)) /\
       (d <> 0%nat ->
        fst kept = Some (Fin (reference_value (plain_player true 2 Minimax) d
                                deepening_tree true)) /\
        reference_move (plain_player true 2 Minimax) d deepening_tree true
          (snd kept))) /\
  (exists st',
     get_move (plain_player false 2 Minimax) plenty 0 deepening_tree
       [(0, 0); (0, 1); (0, 2)] start = Some (Ok (0, 2), st') /\
     ((search (plain_player false 2 Minimax) plenty deepening_tree
         (search_depth (plain_player false 2 Minimax)) start =
         (Raise Timeout, st') /\
       Ok (0, 2) = Ok (0, 0)) \/
      (exists m,
         search (plain_player false 2 Minimax) plenty deepening_tree
           (search_depth (plain_player false 2 Minimax)) start =
           (Ok (Some (Fin (reference_value (plain_player false 2 Minimax)
                             (search_depth (plain_player false 2 Minimax))
                             deepening_tree true)), m), st') /\
         Ok (0, 2) = Ok m /\
         reference_move (plain_player false 2 Minimax)
           (search_depth (plain_player false 2 Minimax)) deepening_tree
           true m))).
Proof.
  split; [apply plain_player_scores|].
  split; [vm_compute; reflexivity|]. split; [vm_compute; reflexivity|].
  split.
  - assert (E : exists st',
               get_move (plain_player true 2 Minimax) (countdown 15) 5
                 deepening_tree [(0, 0); (0, 1); (0, 2)] start =
               Some (Ok (0, 1), st'))
      by (eexists; vm_compute; reflexivity).
    destruct E as (st' & E). exists st'. split; [exact E|].
    exact (proj1 (get_move_on_plain_scores (plain_player true 2 Minimax)
                    (countdown 15) (plain_player_scores true 2 Minimax) 5
                    deepening_tree (0, 0) [(0, 1); (0, 2)] start st'
                    (Ok (0, 1)) E) eq_refl).
  - assert (E : exists st',
               get_move (plain_player false 2 Minimax) plenty 0
                 deepening_tree [(0, 0); (0, 1); (0, 2)] start =
               Some (Ok (0, 2), st'))
      by (eexists; vm_compute; reflexivity).
    destruct E as (st' & E). exists st'. split; [exact E|].
    exact (proj2 (get_move_on_plain_scores (plain_player false 2 Minimax)
                    plenty (plain_player_scores false 2 Minimax) 0
                    deepening_tree (0, 0) [(0, 1); (0, 2)] start st'
                    (Ok (0, 2)) E) eq_refl).
Defined.

(** ** How much of the tree is visited *)

Section Visits.
Context {Game Player : Type} `{Board Game Player}.
Variable self : CustomPlayer Game Player.
Variable time_left : nat -> Z.

Lemma lift_ok_state {A : Type} (o : outcome A) (a : A) (st st' : state Game) :
  lift o st = (Ok a, st') -> st' = st.
Proof. unfold lift. intros E. now inversion E. Qed.

Lemma check_time_ok_ticks (u : unit) (st st' : state Game) :
  check_time self time_left st = (Ok u, st') -> ticks st' = S (ticks st).
Proof.
  unfold check_time, bind, read_time_left, raise, ret.
  destruct (_ <? _); intros E; inversion E; reflexivity.
Qed.

Lemma minimax_loop_visits (recur : Game -> M Game (option num * Move))
    (game : Game) (mp : bool) (n : Game -> nat) (moves : list Move) :
  (forall g st r st', recur g st = (Ok r, st') ->
                      ticks st' = (ticks st + n g)%nat) ->
  forall best move st r st',
    minimax_loop recur game mp moves best move st = (Ok r, st') ->
    ticks st' =
    (ticks st + list_sum (map (fun m => n (forecast_move game m)) moves))%nat.
Proof.
  intros Hrec. induction moves as [|m rest IH]; intros best move st r st' E;
    cbn [minimax_loop] in E.
  - inversion E; subst. simpl. lia.
  - apply bind_ok_inv in E as (child & st1 & Ec & E).
    rewrite call_forecast_move_run in Ec. inversion Ec; subst; clear Ec.
    apply bind_ok_inv in E as (rc & st2 & Er & E).
    apply Hrec in Er. simpl in Er.
    apply bind_ok_inv in E as (change & st3 & El & E).
    apply lift_ok_state in El. subst st3.
    unfold list_sum in *. cbn [map fold_right].
    destruct change; apply IH in E; lia.
Qed.

Lemma alphabeta_loop_visits
    (recur : Game -> num -> num -> M Game (option num * Move))
    (game : Game) (mp : bool) (n : Game -> nat) (moves : list Move) :
  (forall g a b st r st', recur g a b st = (Ok r, st') ->
                          (ticks st' <= ticks st + n g)%nat) ->
  forall alpha beta best move st r st',
    alphabeta_loop recur game mp moves alpha beta best move st = (Ok r, st') ->
    (ticks st' <=
     ticks st + list_sum (map (fun m => n (forecast_move game m)) moves))%nat.
Proof.
  intros Hrec. induction moves as [|m rest IH];
    intros alpha beta best move st r st' E; cbn [alphabeta_loop] in E.
  - inversion E; subst. simpl. lia.
  - apply bind_ok_inv in E as (child & st1 & Ec & E).
    rewrite call_forecast_move_run in Ec. inversion Ec; subst; clear Ec.
    apply bind_ok_inv in E as (rc & st2 & Er & E).
    apply Hrec in Er. simpl in Er.
    apply bind_ok_inv in E as (change & st3 & El & E).
    apply lift_ok_state in El. subst st3.
    unfold list_sum in *. cbn [map fold_right].
    destruct change.
    + apply bind_ok_inv in E as (ab & st4 & El & E).
      apply lift_ok_state in El. subst st4.
      destruct (alphabeta_cut_decision mp (fst ab) (snd ab)).
      * inversion E; subst. lia.
      * apply IH in E. lia.
    + apply IH in E. lia.
Qed.

Lemma minimax_visits (d : nat) :
  forall game mp st r st',
    minimax self time_left game d mp st = (Ok r, st') ->
    ticks st' = (ticks st + nodes d game)%nat.
Proof.
  induction d as [|d IH]; intros game mp st r st' E.
  - rewrite minimax_leaf in E. apply bind_ok_inv in E as (u & st1 & Ec & E).
    apply check_time_ok_ticks in Ec.
    rewrite evaluate_here_run in E. inversion E; subst. simpl. lia.
  - rewrite minimax_node in E. apply bind_ok_inv in E as (u & st1 & Ec & E).
    apply check_time_ok_ticks in Ec. cbn [nodes].
    destruct (get_legal_moves game None) as [|m0 rest].
    + rewrite evaluate_here_run in E. inversion E; subst. simpl. lia.
    + apply minimax_loop_visits with (n := nodes d) in E.
      * simpl in E. simpl. lia.
      * intros g s r' s' Er. now apply IH in Er.
Qed.

Lemma alphabeta_visits (d : nat) :
  forall game alpha beta mp st r st',
    alphabeta self time_left game d alpha beta mp st = (Ok r, st') ->
    (ticks st' <= ticks st + nodes d game)%nat.
Proof.
  induction d as [|d IH]; intros game alpha beta mp st r st' E.
  - rewrite alphabeta_leaf in E. apply bind_ok_inv in E as (u & st1 & Ec & E).
    apply check_time_ok_ticks in Ec.
    rewrite evaluate_here_run in E. inversion E; subst. simpl. lia.
  - rewrite alphabeta_node in E. apply bind_ok_inv in E as (u & st1 & Ec & E).
    apply check_time_ok_ticks in Ec. cbn [nodes].
    destruct (get_legal_moves game None) as [|m0 rest].
    + rewrite evaluate_here_run in E. inversion E; subst. simpl. lia.
    + apply alphabeta_loop_visits with (n := nodes d) in E.
      * simpl in E. simpl. lia.
      * intros g a b s r' s' Er. now apply IH in Er.
Qed.

(** X18.  A call of [minimax] that completes has read the clock once per
    position of the game tree cut at its depth, no more and no less; a call
    of [alphabeta] that completes has read it at most that many times,
    whatever its bounds: pruning never visits more positions than the full
    search. *)
Theorem pruning_visits_no_more (game : Game) (d : nat) (alpha beta : num)
    (mp : bool) (st : state Game) (r r' : option num * Move)
    (st' st'' : state Game) :
  minimax self time_left game d mp st = (Ok r, st') ->
  alphabeta self time_left game d alpha beta mp st = (Ok r', st'') ->
  ticks st' = (ticks st + nodes d game)%nat /\
  (ticks st'' <= ticks st')%nat.
Proof.
  intros Em Ea. apply minimax_visits in Em. apply alphabeta_visits in Ea.
  split; [exact Em | lia].
Qed.

End Visits.

Lemma pruning_visits_no_more_witness :
  fst (minimax (plain_player false 2 Minimax) plenty sample_tree 2 true start) =
    Ok (Some (Fin 4), (0, 2)) /\
  fst (alphabeta (plain_player false 2 Minimax) plenty sample_tree 2
         NegInf PosInf true start) = Ok (Some (Fin 4), (0, 2)) /\
  nodes 2 sample_tree = 11%nat /\
  ticks (snd (minimax (plain_player false 2 Minimax) plenty sample_tree 2 true
                start)) = (ticks start + nodes 2 sample_tree)%nat /\
  (ticks (snd (alphabeta (plain_player false 2 Minimax) plenty sample_tree 2
                 NegInf PosInf true start)) <=
   ticks (snd (minimax (plain_player false 2 Minimax) plenty sample_tree 2 true
                 start)))%nat.
Proof.
  assert (Em : minimax (plain_player false 2 Minimax) plenty sample_tree 2 true
                 start =
               (Ok (Some (Fin 4), (0, 2)),
                snd (minimax (plain_player false 2 Minimax) plenty sample_tree
                       2 true start)))
    by (vm_compute; reflexivity).
  assert (Ea : alphabeta (plain_player false 2 Minimax) plenty sample_tree 2
                 NegInf PosInf true start =
               (Ok (Some (Fin 4), (0, 2)),
                snd (alphabeta (plain_player false 2 Minimax) plenty
                       sample_tree 2 NegInf PosInf true start)))
    by (vm_compute; reflexivity).
  split; [now rewrite Em|]. split; [now rewrite Ea|].
  split; [reflexivity|].
  exact (pruning_visits_no_more (plain_player false 2 Minimax) plenty
           sample_tree 2 NegInf PosInf true start _ _ _ _ Em Ea).
Defined.
